(** * edh-anti-meta: least-popular commanders

    A shallow embedding of [edh-anti-meta.py] and the proofs of the
    properties its specification states about it.

    Modelling conventions.
    - Python [int] is [Z]; list positions and lengths are [nat].
    - Python [str] is [string], read as the UTF-8 bytes of the text.  Case
      mapping, white space and decimal digits are the ASCII ones; text whose
      non-ASCII characters are cased, white space or digits is outside the
      model.
    - A catalog card (a JSON object) is a [gmap string string]: every key
      the functions below read holds a JSON string in the catalog's schema.
    - A raised exception is a value of [exn]; code that can raise returns in
      the error monad [Exc].  [except Exception] catches every [exn].
    - Awaited input (HTTP responses, the current date, the completion order
      of concurrent tasks) is an explicit argument. *)

From Stdlib Require Import ZArith List String Ascii Lia Permutation.
From Equations Require Import Equations.
From stdpp Require Import base option list sorting gmap strings.

(* ===================================================================== *)
(** * The Python runtime the program relies on *)
(* ===================================================================== *)

Module Py.

(** ** Exceptions *)

Inductive exn_kind : Type :=
| IndexError | TypeError | ValueError | OverflowError | ClientError.

(** An exception: its class and [str(e)]. *)
Record exn : Type := Exn { exn_class : exn_kind; exn_str : string }.

Definition Exc (A : Type) : Type := (exn + A)%type.
Definition ret {A} (a : A) : Exc A := inr a.
Definition raise {A} (e : exn) : Exc A := inl e.
Definition bind {A B} (m : Exc A) (k : A -> Exc B) : Exc B :=
  match m with inl e => inl e | inr a => k a end.

(** [try: body  except Exception as e: handler(e)] *)
Definition try_except {A} (body : Exc A) (handler : exn -> Exc A) : Exc A :=
  match body with inl e => handler e | inr a => inr a end.

(** ** Lists used as arrays *)

Definition index_error : exn := Exn IndexError "list index out of range".

(** [l[i]] *)
Definition getitem {A} (l : list A) (i : nat) : Exc A :=
  match l !! i with Some x => ret x | None => raise index_error end.

(** [l[i] = x] *)
Definition setitem {A} (l : list A) (i : nat) (x : A) : Exc (list A) :=
  if decide (i < length l) then ret (<[i := x]> l) else raise index_error.

(** [l.pop()]: the list without its last element, and that element. *)
Definition pop {A} (l : list A) : Exc (list A * A) :=
  match last l with
  | Some x => ret (removelast l, x)
  | None => raise (Exn IndexError "pop from empty list")
  end.

(** ** Strings *)

Definition code (c : ascii) : nat := nat_of_ascii c.

Definition is_digit (c : ascii) : bool := (48 <=? code c) && (code c <=? 57).
Definition is_upper (c : ascii) : bool := (65 <=? code c) && (code c <=? 90).

(** White space: tab, line feed, vertical tab, form feed, carriage return,
    the four separators 28..31 and the space. *)
Definition is_space (c : ascii) : bool :=
  ((9 <=? code c) && (code c <=? 13)) || ((28 <=? code c) && (code c <=? 32)).

Definition lower_char (c : ascii) : ascii :=
  if is_upper c then ascii_of_nat (code c + 32) else c.

(** [s.lower()] *)
Fixpoint lower (s : string) : string :=
  match s with
  | EmptyString => EmptyString
  | String c t => String (lower_char c) (lower t)
  end.

(** [needle in hay] *)
Fixpoint str_in (needle hay : string) : bool :=
  String.prefix needle hay
  || match hay with
     | EmptyString => false
     | String _ t => str_in needle t
     end.

Fixpoint lstrip (s : string) : string :=
  match s with
  | EmptyString => EmptyString
  | String c t => if is_space c then lstrip t else s
  end.

Fixpoint rev_onto (s acc : string) : string :=
  match s with
  | EmptyString => acc
  | String c t => rev_onto t (String c acc)
  end.

Definition str_reverse (s : string) : string := rev_onto s EmptyString.

(** [s.strip()] *)
Definition strip (s : string) : string :=
  str_reverse (lstrip (str_reverse (lstrip s))).

(** The longest prefix whose characters satisfy [p], and the rest. *)
Fixpoint span (p : ascii -> bool) (s : string) : string * string :=
  match s with
  | EmptyString => (EmptyString, EmptyString)
  | String c t =>
      if p c then let '(a, b) := span p t in (String c a, b)
      else (EmptyString, s)
  end.

(** Truth value of an optional string: [None] and [""] are falsy. *)
Definition truthy (o : option string) : bool :=
  match o with
  | Some (String _ _) => true
  | _ => false
  end.

(** [x or y] on optional strings. *)
Definition py_or (x y : option string) : option string :=
  if truthy x then x else y.

(** [(x or "")] *)
Definition or_empty (x : option string) : string :=
  match py_or x (Some EmptyString) with Some s => s | None => EmptyString end.

Definition digit_val (c : ascii) : Z := Z.of_nat (code c - 48).

Fixpoint int_digits (acc : Z) (s : string) : Z :=
  match s with
  | EmptyString => acc
  | String c t => int_digits (10 * acc + digit_val c)%Z t
  end.

(** [sys.get_int_max_str_digits()], at its default. *)
Definition int_max_str_digits : nat := 4300.

(** [int(s)] for a non-empty string of decimal digits. *)
Definition int_of_digits (s : string) : Exc Z :=
  if decide (String.length s <= int_max_str_digits)
  then ret (int_digits 0 s)
  else raise (Exn ValueError
                "Exceeds the limit (4300 digits) for integer string conversion").

(** [s.replace(",", "")] *)
Fixpoint remove_commas (s : string) : string :=
  match s with
  | EmptyString => EmptyString
  | String c t =>
      if Ascii.eqb c ","%char then remove_commas t
      else String c (remove_commas t)
  end.

End Py.

Export Py.

Notation "'do' x <- m ; k" := (bind m (fun x => k))
  (at level 10, x name, m at level 100, k at level 200, only parsing).

(* ===================================================================== *)
(** * [heapq]: the binary heap on a list *)
(* ===================================================================== *)

Module Heapq.

(** [(pos - 1) >> 1] *)
Definition parentpos (pos : nat) : nat := (pos - 1) / 2.
Arguments parentpos : simpl never.

Section Heap.
Context {A : Type}.
(** [x < y] on items; comparing may raise. *)
Variable lt : A -> A -> Exc bool.

(** The [while pos > startpos] loop of [_siftdown]. *)
Equations? _siftdown_loop (heap : list A) (startpos pos : nat) (newitem : A)
  : Exc (list A) by wf pos Nat.lt :=
  _siftdown_loop heap startpos pos newitem with decide (startpos < pos) => {
    | right _ := setitem heap pos newitem
    | left _ with getitem heap (parentpos pos) => {
        | inl e := raise e
        | inr parent with lt newitem parent => {
            | inl e := raise e
            | inr false := setitem heap pos newitem
            | inr true with setitem heap pos parent => {
                | inl e := raise e
                | inr heap' :=
                    _siftdown_loop heap' startpos (parentpos pos) newitem } } } }.
Proof. unfold parentpos. apply Nat.Div0.div_lt_upper_bound. lia. Qed.

Definition _siftdown (heap : list A) (startpos pos : nat) : Exc (list A) :=
  do newitem <- getitem heap pos;
  _siftdown_loop heap startpos pos newitem.

Definition heappush (heap : list A) (item : A) : Exc (list A) :=
  let heap := heap ++ [item] in
  _siftdown heap 0 (length heap - 1).

(** The [while childpos < endpos] loop of [_siftup]: the hole at [pos]
    moves down to a leaf, the smaller child moving up each time.  The
    right child is chosen ([childpos = rightpos]) when it exists and the
    left one is not smaller; [side] is 0 for the left child and 1 for
    the right one.  Returns the list and the final [pos]. *)
Equations? _siftup_loop (heap : list A) (endpos pos : nat)
  : Exc (list A * nat) by wf (endpos - pos) Nat.lt :=
  _siftup_loop heap endpos pos with decide (2 * pos + 1 < endpos) => {
    | right _ := ret (heap, pos)
    | left _ with
        (if decide (2 * pos + 1 + 1 < endpos)
         then do l <- getitem heap (2 * pos + 1);
              do r <- getitem heap (2 * pos + 1 + 1);
              do b <- lt l r;
              ret (if b then 0 else 1)
         else ret 0) => {
        | inl e := raise e
        | inr side with getitem heap (2 * pos + 1 + side) => {
            | inl e := raise e
            | inr child with setitem heap pos child => {
                | inl e := raise e
                | inr heap' :=
                    _siftup_loop heap' endpos (2 * pos + 1 + side) } } } }.
Proof. lia. Qed.

Definition _siftup (heap : list A) (pos : nat) : Exc (list A) :=
  let endpos := length heap in
  let startpos := pos in
  do newitem <- getitem heap pos;
  do hp <- _siftup_loop heap endpos pos;
  do heap <- setitem hp.1 hp.2 newitem;
  _siftdown heap startpos hp.2.

(** [heappop]: the smallest item and the heap without it. *)
Definition heappop (heap : list A) : Exc (A * list A) :=
  do hl <- pop heap;
  match hl.1 with
  | [] => ret (hl.2, [])
  | returnitem :: _ =>
      do heap <- setitem hl.1 0 hl.2;
      do heap <- _siftup heap 0;
      ret (returnitem, heap)
  end.
End Heap.

End Heapq.

Export Heapq.

(* ===================================================================== *)
(** * Data structures *)
(* ===================================================================== *)

(** A catalog card. [card.get(k)] is [card !! k]. *)
Abbreviation card := (gmap string string).

Record Commander : Type := mkCommander {
  cmdr_name : string;
  edhrec_route_url : string
}.

Record Result : Type := mkResult {
  name : string;
  edhrec_url : string;
  decks : option Z;
  error : option string
}.

#[global] Instance Result_eq_dec : EqDecision Result.
Proof. solve_decision. Defined.

(* ===================================================================== *)
(** * Scryfall helpers *)
(* ===================================================================== *)

Module Scryfall.

Definition is_commander_face (c : card) : bool :=
  let tl := default EmptyString (c !! "type_line") in
  str_in "Legendary" tl && str_in "Creature" tl.

(** [card.get("oracle_id") or card.get("id")] *)
Definition commander_key (c : card) : option string :=
  py_or (c !! "oracle_id") (c !! "id").

(** [by_oracle], a dict in insertion order: [k in d] and [d[k] = c] for
    a key that is not in it yet. *)
Definition dict_has {K V} `{EqDecision K} (k : K) (d : list (K * V)) : bool :=
  bool_decide (k ∈ d.*1).

Fixpoint collapse_loop (by_oracle : list (option string * card))
    (cards : list card) : list (option string * card) :=
  match cards with
  | [] => by_oracle
  | c :: cards =>
      if negb (is_commander_face c) then collapse_loop by_oracle cards
      else
        let k := commander_key c in
        if dict_has k by_oracle then collapse_loop by_oracle cards
        else collapse_loop (by_oracle ++ [(k, c)]) cards
  end.

Definition collapse_by_oracle (cards : list card) : list card :=
  (collapse_loop [] cards).*2.

End Scryfall.

Export Scryfall.

(* ===================================================================== *)
(** * Dates: [datetime.strptime(ra, "%Y-%m-%d").date()] *)
(* ===================================================================== *)

Module Dates.

Record date : Type := mkDate { year : Z; month : Z; day : Z }.

Definition in_range (lo hi : nat) (c : ascii) : bool :=
  (lo <=? code c) && (code c <=? hi).

(** One character of the class [lo-hi] (given by character codes). *)
Definition take_class (lo hi : nat) (s : string) : option (Z * string) :=
  match s with
  | String c t => if in_range lo hi c then Some (digit_val c, t) else None
  | EmptyString => None
  end.

Definition expect (ch : ascii) (s : string) : option string :=
  match s with
  | String c t => if Ascii.eqb c ch then Some t else None
  | EmptyString => None
  end.

(** Two characters, the first one fixed or from a class. *)
Definition two (lo1 hi1 lo2 hi2 : nat) (s : string) : option (Z * string) :=
  '(a, s) ← take_class lo1 hi1 s;
  '(b, s) ← take_class lo2 hi2 s;
  Some (10 * a + b, s)%Z.

(** [%Y]: [\d\d\d\d] *)
Definition directive_Y (s : string) : option (Z * string) :=
  '(a, s) ← take_class 48 57 s;
  '(b, s) ← take_class 48 57 s;
  '(c, s) ← take_class 48 57 s;
  '(d, s) ← take_class 48 57 s;
  Some (1000 * a + 100 * b + 10 * c + d, s)%Z.

(** [%m]: [1[0-2]|0[1-9]|[1-9]] *)
Definition directive_m : list (string -> option (Z * string)) :=
  [ two 49 49 48 50; two 48 48 49 57; take_class 49 57 ].

(** [%d]: [3[0-1]|[1-2]\d|0[1-9]|[1-9]| [1-9]] *)
Definition directive_d : list (string -> option (Z * string)) :=
  [ two 51 51 48 49; two 49 50 48 57; two 48 48 49 57; take_class 49 57;
    fun s => s ← expect " " s; take_class 49 57 s ].

(** An alternation followed by the rest of the pattern [k]: the first
    alternative with which the whole match succeeds. *)
Fixpoint alternation {T} (alts : list (string -> option (Z * string)))
    (k : Z -> string -> option T) (s : string) : option T :=
  match alts with
  | [] => None
  | alt :: alts =>
      match alt s ≫= (fun vs => k vs.1 vs.2) with
      | Some r => Some r
      | None => alternation alts k s
      end
  end.

(** [format_regex.match(data_string)]: the fields and the unmatched rest. *)
Definition format_regex_match (s : string) : option (Z * Z * Z * string) :=
  '(y, s) ← directive_Y s;
  s ← expect "-" s;
  alternation directive_m (fun m s =>
    s ← expect "-" s;
    alternation directive_d (fun d s => Some (y, m, d, s)) s) s.

Definition is_leap (y : Z) : bool :=
  ((y mod 4 =? 0) && (negb (y mod 100 =? 0) || (y mod 400 =? 0)))%Z.

Definition days_in_month (y m : Z) : Z :=
  (if m =? 2 then (if is_leap y then 29 else 28)
   else if (m =? 4) || (m =? 6) || (m =? 9) || (m =? 11) then 30
   else 31)%Z.

(** [datetime.strptime(s, "%Y-%m-%d").date()] *)
Definition strptime_date (s : string) : Exc date :=
  match format_regex_match s with
  | None => raise (Exn ValueError "time data does not match format")
  | Some (y, m, d, rest) =>
      match rest with
      | String _ _ => raise (Exn ValueError "unconverted data remains")
      | EmptyString =>
          if ((1 <=? y) && (y <=? 9999) && (d <=? days_in_month y m))%Z
          then ret (mkDate y m d)
          else raise (Exn ValueError "day is out of range for month")
      end
  end.

Definition days_before_year (y : Z) : Z :=
  ((y - 1) * 365 + (y - 1) / 4 - (y - 1) / 100 + (y - 1) / 400)%Z.

Fixpoint days_before_month_from (y : Z) (m : nat) : Z :=
  match m with
  | O => 0
  | S m' => (days_before_month_from y m' + days_in_month y (Z.of_nat m))%Z
  end.

(** [d.toordinal()]: days since 0001-01-01, that day being 1. *)
Definition toordinal (d : date) : Z :=
  (days_before_year (year d)
   + days_before_month_from (year d) (Z.to_nat (month d) - 1)
   + day d)%Z.

(** [timedelta(days=n)] *)
Definition timedelta (n : Z) : Exc Z :=
  if (Z.abs n <=? 999999999)%Z then ret n
  else raise (Exn OverflowError "days out of range for timedelta").

End Dates.

Export Dates.

(* ===================================================================== *)
(** * Filter predicates *)
(* ===================================================================== *)

Module Filters.

Definition PARTNER_MARKERS : list string :=
  ["partner with"; "partner"; "friends forever"].
Definition BACKGROUND_MARKER : string := "choose a background".
Definition COMPANION_MARKER : string := "companion".
Definition DOCTORS_COMPANION_MARKERS : list string :=
  ["doctor's companion"; "doctor’s companion"].

Definition oracle_text_lower (c : card) : string :=
  lower (or_empty (c !! "oracle_text")).

Definition is_funny_set (c : card) : bool :=
  bool_decide (c !! "set_type" = Some "funny").

Definition has_partner (c : card) : bool :=
  existsb (fun m => str_in m (oracle_text_lower c)) PARTNER_MARKERS.

Definition has_background_ability (c : card) : bool :=
  str_in BACKGROUND_MARKER (oracle_text_lower c).

Definition has_companion (c : card) : bool :=
  str_in COMPANION_MARKER (oracle_text_lower c).

Definition has_doctors_companion (c : card) : bool :=
  existsb (fun m => str_in m (oracle_text_lower c)) DOCTORS_COMPANION_MARKERS.

Definition is_vanilla (c : card) : bool :=
  String.length (strip (or_empty (c !! "oracle_text"))) =? 0.

(** [today_utc] is [datetime.now(UTC).date()]. *)
Definition is_recent (today_utc : date) (c : card) (days : Z) : Exc bool :=
  if (days <=? 0)%Z then ret false
  else
    let ra := c !! "released_at" in
    if negb (truthy ra) then ret false
    else
      match strptime_date (or_empty ra) with
      | inl _ => ret false
      | inr rel_date =>
          do window <- timedelta days;
          ret (toordinal today_utc - toordinal rel_date <=? window)%Z
      end.

Definition is_doctor (c : card) : bool :=
  let tl := lower (or_empty (c !! "type_line")) in
  let set_name := lower (or_empty (c !! "set_name")) in
  str_in "doctor who" set_name && str_in "time lord" tl.

Definition looks_like_ptk_fast (c : card) : bool :=
  let set_code := lower (or_empty (c !! "set")) in
  let set_name := lower (or_empty (c !! "set_name")) in
  String.eqb set_code "ptk" || str_in "portal three kingdoms" set_name.

(** What the printings endpoint answers along the [next_page] chain of
    one card.  A request fails ([session.get], [raise_for_status] or
    [r.json()] raises), or it yields a page: the ["set"] of each printing
    in ["data"] and, when the page has a ["next_page"], that address and
    the answer to it. *)
Inductive printings : Type :=
| PageFails (e : exn)
| LastPage (data : list (option string))
| Page (data : list (option string)) (next_page : string) (answer : printings).

(** [(printing.get("set") or "").lower() == "ptk"] for some printing. *)
Definition has_ptk_printing (data : list (option string)) : bool :=
  existsb (fun set => String.eqb (lower (or_empty set)) "ptk") data.

(** The body of the [try] of [is_ptk_strict]: the [while uri] loop, entered
    with a truthy [uri], and the [return False] after it. *)
Fixpoint ptk_scan (answer : printings) : Exc bool :=
  match answer with
  | PageFails e => raise e
  | LastPage data => ret (has_ptk_printing data)
  | Page data next_page answer' =>
      if has_ptk_printing data then ret true
      else if truthy (Some next_page) then ptk_scan answer'
      else ret false
  end.

(** [answer] is the endpoint's answer to the card's [prints_search_uri]. *)
Definition is_ptk_strict (answer : printings) (c : card) : Exc bool :=
  let uri := c !! "prints_search_uri" in
  if negb (truthy uri) then ret (looks_like_ptk_fast c)
  else try_except (ptk_scan answer) (fun _ => ret (looks_like_ptk_fast c)).

(** The keyword arguments of [apply_filters_async]. *)
Record filter_options : Type := mkFilterOptions {
  exclude_funny : bool;
  exclude_partner : bool;
  exclude_background : bool;
  exclude_companion : bool;
  exclude_doctors_companion : bool;
  exclude_vanilla : bool;
  exclude_recent : bool;
  recent_days : Z;
  exclude_ptk : bool;
  ptk_strict : bool;
  exclude_doctors : bool;
  concurrency : Z
}.

(** One round of the first pass: [false] stands for [continue]. *)
Definition first_pass_keeps (o : filter_options) (today_utc : date) (c : card)
  : Exc bool :=
  if exclude_funny o && is_funny_set c then ret false
  else if exclude_partner o && has_partner c then ret false
  else if exclude_background o && has_background_ability c then ret false
  else if exclude_companion o && has_companion c then ret false
  else if exclude_doctors_companion o && has_doctors_companion c then ret false
  else if exclude_vanilla o && is_vanilla c then ret false
  else
    do recent <- (if exclude_recent o then is_recent today_utc c (recent_days o)
                  else ret false);
    if recent then ret false
    else if exclude_doctors o && is_doctor c then ret false
    else ret true.

(** First pass: cheap synchronous filters. *)
Fixpoint first_pass (o : filter_options) (today_utc : date) (pool : list card)
  : Exc (list card) :=
  match pool with
  | [] => ret []
  | c :: pool =>
      do keep <- first_pass_keeps o today_utc c;
      do prelim <- first_pass o today_utc pool;
      ret (if keep then c :: prelim else prelim)
  end.

(** [asyncio.Semaphore(value)] : the number of slots. *)
Definition Semaphore (value : Z) : Exc Z :=
  if (value <? 0)%Z
  then raise (Exn ValueError "Semaphore initial value must be >= 0")
  else ret value.

(** The slots of the semaphore that gates the strict checks. *)
Definition strict_semaphore (o : filter_options) : Exc Z :=
  Semaphore (Z.max 2 (concurrency o)).

(** [check(c)], given the endpoint's answer for [c]. *)
Definition check (answer : printings) (c : card) : Exc (option card) :=
  do ptk <- is_ptk_strict answer c;
  ret (if negb ptk then Some c else None).

Fixpoint gather (futs : list (Exc (option card))) : Exc (list card) :=
  match futs with
  | [] => ret []
  | fut :: futs =>
      do kept <- fut;
      do out <- gather futs;
      ret (match kept with Some c => c :: out | None => out end)
  end.

(** [prints c] is the endpoint's answer for [c]; [as_completed] is the
    order in which the scheduler completes the tasks. *)
Definition apply_filters_async (today_utc : date) (prints : card -> printings)
    (as_completed : list card -> list card)
    (pool : list card) (o : filter_options) : Exc (list card) :=
  do prelim <- first_pass o today_utc pool;
  if negb (exclude_ptk o) then ret prelim
  else if negb (ptk_strict o)
  then ret (filter (fun c => negb (looks_like_ptk_fast c)) prelim)
  else
    do sem <- strict_semaphore o;
    gather (map (fun c => check (prints c) c) (as_completed prelim)).

End Filters.

Export Filters.

(* ===================================================================== *)
(** * EDHREC fetch *)
(* ===================================================================== *)

Module Edhrec.

Definition is_digit_or_comma (c : ascii) : bool :=
  is_digit c || Ascii.eqb c ","%char.

(** Case-insensitive literal, as under [re.I]: the rest after it. *)
Fixpoint literal_ci (lit s : string) : option string :=
  match lit, s with
  | EmptyString, _ => Some s
  | String a lit', String c s' =>
      if Ascii.eqb (lower_char c) a then literal_ci lit' s' else None
  | String _ _, EmptyString => None
  end.

(** [DECKS_RE] matched at the start of [s]: group 1.  The classes of
    [\d[\d,]*], [\s+] and the first letter of [decks] are disjoint, so the
    greedy repetitions never give a character back. *)
Definition DECKS_RE_match (s : string) : option string :=
  match s with
  | String c _ =>
      if is_digit c then
        let '(group1, rest) := span is_digit_or_comma s in
        match span is_space rest with
        | (String _ _, rest) =>
            match literal_ci "decks" rest with
            | Some _ => Some group1
            | None => None
            end
        | (EmptyString, _) => None
        end
      else None
  | EmptyString => None
  end.

(** [DECKS_RE.search(html)]: group 1 of the leftmost match. *)
Fixpoint DECKS_RE_search (html : string) : option string :=
  match DECKS_RE_match html with
  | Some g => Some g
  | None =>
      match html with
      | EmptyString => None
      | String _ html' => DECKS_RE_search html'
      end
  end.

Definition extract_deck_count (html : string) : Exc (option Z) :=
  match DECKS_RE_search html with
  | None => ret None
  | Some group1 =>
      do n <- int_of_digits (remove_commas group1);
      ret (Some n)
  end.

(** What [session.get(url, allow_redirects=True)] does: it raises, or it
    answers from [final_url] and reading the body gives [text]. *)
Inductive response : Type :=
| GetRaises (e : exn)
| Response (final_url : string) (text : Exc string).

(** The slot of [sem] is held from the start to the end of the call and
    the [finally] sleeps before giving it back; neither changes the value
    returned. *)
Definition fetch_deck_count (answer : response) (cmdr : Commander) : Exc Result :=
  try_except
    (match answer with
     | GetRaises e => raise e
     | Response final_url text =>
         do html <- text;
         do decks <- extract_deck_count html;
         ret (mkResult (cmdr_name cmdr) final_url decks None)
     end)
    (fun e =>
       ret (mkResult (cmdr_name cmdr) (edhrec_route_url cmdr) None
              (Some (exn_str e)))).

End Edhrec.

Export Edhrec.

(* ===================================================================== *)
(** * Main: the bottom-K reduction *)
(* ===================================================================== *)

Module Main.

(** The command line. *)
Record args : Type := mkArgs {
  bottom_k : Z;
  args_concurrency : Z;
  only_positive : bool;
  include_errors : bool;
  include_partners : bool;
  include_backgrounds : bool;
  include_companions : bool;
  include_doctors_companions : bool;
  include_funny_sets : bool;
  include_vanilla : bool;
  include_ptk : bool;
  args_ptk_strict : bool;
  include_doctors : bool;
  include_recent : bool;
  args_recent_days : Z
}.

(** The keyword arguments [main_async] passes to [apply_filters_async]. *)
Definition filter_options_of (a : args) : filter_options :=
  {| exclude_funny := negb (include_funny_sets a);
     exclude_partner := negb (include_partners a);
     exclude_background := negb (include_backgrounds a);
     exclude_companion := negb (include_companions a);
     exclude_doctors_companion := negb (include_doctors_companions a);
     exclude_vanilla := negb (include_vanilla a);
     exclude_recent := negb (include_recent a);
     recent_days := args_recent_days a;
     exclude_ptk := negb (include_ptk a);
     ptk_strict := args_ptk_strict a;
     exclude_doctors := negb (include_doctors a);
     concurrency := Z.max 2 (args_concurrency a / 2) |}.

(** The slots of the semaphore that gates the metric fetches. *)
Definition fetch_semaphore (a : args) : Exc Z :=
  Semaphore (args_concurrency a).

(** sentinel for None deck counts (when not showing errors) *)
Definition big : Z := 10 ^ 12.

(** A heap item [(-val, seq, res)]. *)
Definition item : Type := Z * Z * Result.

(** [x < y] on heap items, as tuples: the first components that differ
    decide; [Result] has [==] and no [<]. *)
Definition item_lt (x y : item) : Exc bool :=
  let '(xv, xs, xr) := x in
  let '(yv, ys, yr) := y in
  if negb (xv =? yv)%Z then ret (xv <? yv)%Z
  else if negb (xs =? ys)%Z then ret (xs <? ys)%Z
  else if bool_decide (xr = yr) then ret false
  else raise (Exn TypeError
                "'<' not supported between instances of 'Result' and 'Result'").

(** [val]: the rank key of a result. *)
Definition rank_key (a : args) (res : Result) : Z :=
  match decks res with
  | Some d => d
  | None => if negb (include_errors a) then big else 0%Z
  end.

(** [args.only_positive and isinstance(res.decks, int) and res.decks <= 0] *)
Definition skipped (a : args) (res : Result) : bool :=
  only_positive a
  && match decks res with Some d => (d <=? 0)%Z | None => false end.

(** One round of the [for coro in asyncio.as_completed(tasks)] loop on
    the state [(heap, seq)]. *)
Definition main_async_step (a : args) (st : list item * Z) (res : Result)
  : Exc (list item * Z) :=
  let '(heap, seq) := st in
  let val := rank_key a res in
  if skipped a res then ret (heap, seq)
  else
    do heap <- heappush item_lt heap (- val, seq, res)%Z;
    let seq := (seq + 1)%Z in
    if (bottom_k a <? Z.of_nat (length heap))%Z
    then do popped <- heappop item_lt heap; ret (popped.2, seq)
    else ret (heap, seq).

(** The loop from a given state, over the results in completion order. *)
Fixpoint main_async_loop (a : args) (st : list item * Z) (results : list Result)
  : Exc (list item * Z) :=
  match results with
  | [] => ret st
  | res :: results =>
      do st <- main_async_step a st res;
      main_async_loop a st results
  end.

(** The heap at the end of the stream, from [heap = []] and [seq = 0]. *)
Definition final_heap (a : args) (results : list Result) : Exc (list item) :=
  do st <- main_async_loop a ([], 0%Z) results;
  ret st.1.

(** [bottom = [t[2] for t in heap]], before it is sorted for display. *)
Definition bottom (a : args) (results : list Result) : Exc (list Result) :=
  do heap <- final_heap a results;
  ret (map (fun t : item => t.2) heap).

End Main.

Export Main.

(* ===================================================================== *)
(** * Specification-level definitions *)
(* ===================================================================== *)

(** ** The heap invariant *)

Module HeapSpec.
Section Order.
Context {A : Type} (le : A -> A -> Prop).

(** Every item is at least its parent. *)
Definition heap_ok (h : list A) : Prop :=
  forall i x y, 0 < i -> h !! i = Some x -> h !! parentpos i = Some y -> le y x.

(** The loop of [_siftdown] holds [newitem] aside and moves a hole up:
    the slot [pos], whose content is stale.  Away from the hole the
    list is a heap, the children of the hole are at least [newitem]
    and at least the parent of the hole. *)
Record hole_inv (h : list A) (pos : nat) (newitem : A) : Prop := {
  hole_others : forall i x y,
    0 < i -> i <> pos -> parentpos i <> pos ->
    h !! i = Some x -> h !! parentpos i = Some y -> le y x;
  hole_children : forall i x,
    0 < i -> parentpos i = pos -> h !! i = Some x -> le newitem x;
  hole_grand : forall i x y,
    0 < i -> parentpos i = pos -> 0 < pos ->
    h !! i = Some x -> h !! parentpos pos = Some y -> le y x
}.

(** The same while the loop of [_siftup] moves the hole down: nothing
    is known yet about [newitem] and the children of the hole. *)
Record sink_inv (h : list A) (pos : nat) : Prop := {
  sink_others : forall i x y,
    0 < i -> i <> pos -> parentpos i <> pos ->
    h !! i = Some x -> h !! parentpos i = Some y -> le y x;
  sink_grand : forall i x y,
    0 < i -> parentpos i = pos -> 0 < pos ->
    h !! i = Some x -> h !! parentpos pos = Some y -> le y x
}.
End Order.
End HeapSpec.

Export HeapSpec.

(** ** The bottom-K selection, by a full sort *)

Module Selection.

(** The results that reach the heap. *)
Definition admitted (a : args) (results : list Result) : list Result :=
  filter (fun res => negb (skipped a res)) results.

(** A stable insertion sort, ascending in the rank key. *)
Fixpoint insert_by_rank (a : args) (res : Result) (l : list Result) : list Result :=
  match l with
  | [] => [res]
  | y :: l' =>
      if (rank_key a res <=? rank_key a y)%Z then res :: l
      else y :: insert_by_rank a res l'
  end.

Fixpoint sort_by_rank (a : args) (l : list Result) : list Result :=
  match l with
  | [] => []
  | res :: l' => insert_by_rank a res (sort_by_rank a l')
  end.

(** The first K of the admitted results sorted by rank key, the later
    admitted first among equal keys. *)
Definition brute_force_bottom (a : args) (results : list Result) : list Result :=
  take (Z.to_nat (bottom_k a)) (sort_by_rank a (rev (admitted a results))).

(** The order of the heap on items: by [-val], then by [seq]. *)
Definition item_tag (x : item) : Z := x.1.2.

Definition item_le (x y : item) : Prop :=
  (x.1.1 < y.1.1 \/ (x.1.1 = y.1.1 /\ x.1.2 <= y.1.2))%Z.

Definition item_leb (x y : item) : bool :=
  ((x.1.1 <? y.1.1) || ((x.1.1 =? y.1.1) && (x.1.2 <=? y.1.2)))%Z.

(** Insertion into a list of items that descends in the heap order. *)
Fixpoint insert_item (e : item) (l : list item) : list item :=
  match l with
  | [] => [e]
  | y :: l' => if item_leb y e then e :: l else y :: insert_item e l'
  end.

(** [sorted] is the admitted results [adm] as items, sorted: it descends
    in the heap order, the sequence numbers are distinct and below [seq],
    and the results are [adm] sorted by rank key, the later first among
    equal keys. *)
Definition sorted_items (a : args) (adm : list Result) (seq : Z)
    (sorted : list item) : Prop :=
  StronglySorted (flip item_le) sorted
  /\ NoDup (item_tag <$> sorted)
  /\ Forall (fun x : item => (item_tag x < seq)%Z
                             /\ x.1.1 = (- rank_key a x.2)%Z) sorted
  /\ sorted.*2 = sort_by_rank a (rev adm).

(** The state of the loop after the admitted results [adm]: the heap
    holds the first K of the sorted items. *)
Definition selector_inv (a : args) (adm : list Result) (st : list item * Z) : Prop :=
  exists sorted : list item,
    sorted_items a adm st.2 sorted
    /\ st.1 ≡ₚ take (Z.to_nat (bottom_k a)) sorted
    /\ heap_ok item_le st.1.

Definition rank_le (a : args) (x y : Result) : Prop :=
  (rank_key a x <= rank_key a y)%Z.

End Selection.

Export Selection.

(** ** Statements about the pipeline *)

Module Statements.

(** The retained results do not depend on the order of the stream. *)
Definition bottom_order_independent : Prop :=
  forall (a : args) (results results' b b' : list Result),
    results ≡ₚ results' ->
    bottom a results = ret b -> bottom a results' = ret b' -> b ≡ₚ b'.

(** The strict check of a card meets a failing request: no page before
    it shows a PTK printing, and each links to the next. *)
Inductive scan_fails : printings -> exn -> Prop :=
| scan_fails_here e : scan_fails (PageFails e) e
| scan_fails_later data next_page answer e :
    has_ptk_printing data = false ->
    truthy (Some next_page) = true ->
    scan_fails answer e ->
    scan_fails (Page data next_page answer) e.

(** The verdict of the strict check, [false] if it raised. *)
Definition strict_verdict (answer : printings) (c : card) : bool :=
  match is_ptk_strict answer c with
  | inr ptk => ptk
  | inl _ => false
  end.

Definition set_exclude_recent (b : bool) (o : filter_options) : filter_options :=
  {| exclude_funny := exclude_funny o;
     exclude_partner := exclude_partner o;
     exclude_background := exclude_background o;
     exclude_companion := exclude_companion o;
     exclude_doctors_companion := exclude_doctors_companion o;
     exclude_vanilla := exclude_vanilla o;
     exclude_recent := b;
     recent_days := recent_days o;
     exclude_ptk := exclude_ptk o;
     ptk_strict := ptk_strict o;
     exclude_doctors := exclude_doctors o;
     concurrency := concurrency o |}.

(** [c] is the first commander face with its key in [cards]. *)
Definition first_with_key (cards : list card) (c : card) : Prop :=
  exists before after,
    cards = before ++ c :: after
    /\ is_commander_face c = true
    /\ forall c', c' ∈ before -> is_commander_face c' = true ->
                  commander_key c' ≠ commander_key c.

(** What [main_async_step] does with a result it admits under the rank
    key [val]. *)
Definition admit_with (a : args) (val : Z) (st : list item * Z) (res : Result)
  : Exc (list item * Z) :=
  do heap <- heappush item_lt st.1 (- val, st.2, res)%Z;
  if (bottom_k a <? Z.of_nat (length heap))%Z
  then do popped <- heappop item_lt heap; ret (popped.2, (st.2 + 1)%Z)
  else ret (heap, (st.2 + 1)%Z).

(** The two pools of a run, as slots: the strict checks and the metric
    fetches. *)
Definition verification_pool (a : args) : Exc Z :=
  strict_semaphore (filter_options_of a).

Definition metric_pool (a : args) : Exc Z := fetch_semaphore a.

(** The sizes are independent configuration values: every pair of pool
    sizes is the pair of some command line. *)
Definition pools_independent : Prop :=
  forall v m : Z, (1 <= v)%Z -> (1 <= m)%Z ->
    exists a, verification_pool a = ret v /\ metric_pool a = ret m.

End Statements.

Export Statements.

(** ** Concrete runs *)

Module Examples.

Definition run (k : Z) (only_pos incl_errors : bool) : args :=
  {| bottom_k := k; args_concurrency := 8;
     only_positive := only_pos; include_errors := incl_errors;
     include_partners := false; include_backgrounds := false;
     include_companions := false; include_doctors_companions := false;
     include_funny_sets := false; include_vanilla := false;
     include_ptk := false; args_ptk_strict := true;
     include_doctors := false; include_recent := false;
     args_recent_days := 90 |}.

Definition fetched (n : string) (d : Z) : Result :=
  mkResult n ("https://edhrec.com/commanders/" ++ n) (Some d) None.

Definition failed (n : string) : Result :=
  mkResult n ("https://edhrec.com/route/?cc=" ++ n) None (Some "timeout").

(** The metrics [50, <error>, 10, 5, 5]. *)
Definition five : list Result :=
  [fetched "a" 50; failed "b"; fetched "c" 10; fetched "d" 5; fetched "e" 5].

Definition printing (n oracle type_line : string) : card :=
  {[ "name" := n; "oracle_id" := oracle; "type_line" := type_line ]}.

Definition atraxa : card :=
  printing "Atraxa" "o-1" "Legendary Creature — Phyrexian Angel".
Definition token : card := printing "Angel" "o-1" "Token Creature — Angel".
Definition atraxa_promo : card :=
  <["set" := "pmei"]> (printing "Atraxa" "o-1" "Legendary Creature — Phyrexian Angel").
Definition sun_quan : card :=
  <["set" := "ptk"]> (<["prints_search_uri" := "https://api.scryfall.com/p1"]>
    (printing "Sun Quan" "o-2" "Legendary Creature — Human Soldier")).
Definition undated : card :=
  <["released_at" := "soon"]> (printing "Nameless" "o-3" "Legendary Creature").

Definition timeout : exn := Exn ClientError "Connection timeout".

(** The default filters with [--recent-days 0]. *)
Definition no_window : filter_options :=
  {| exclude_funny := true; exclude_partner := true;
     exclude_background := true; exclude_companion := true;
     exclude_doctors_companion := true; exclude_vanilla := true;
     exclude_recent := true; recent_days := 0;
     exclude_ptk := true; ptk_strict := false;
     exclude_doctors := true; concurrency := 4 |}.

Definition today : date := mkDate 2026 11 4.

End Examples.

Export Examples.

(* ===================================================================== *)
(** * The rest of the pipeline *)
(* ===================================================================== *)

(** ** The catalog: [fetch_all_scryfall] *)

Module Catalog.

Definition SCRYFALL_QUERY : string :=
  "t:legendary type:creature legal:commander game:paper".
Definition SCRYFALL_API : string := "https://api.scryfall.com/cards/search".

(** The [params] of the first request. *)
Definition query_params : list (string * string) :=
  [("q", SCRYFALL_QUERY); ("unique", "cards"); ("order", "name"); ("dir", "asc")].

(** What the loop does to the outside: a request with its [params], or
    the [asyncio.sleep(0.05)] between two pages. *)
Inductive event : Type :=
| Request (url : string) (params : option (list (string * string)))
| Pause.

(** What the search endpoint answers along the [next_page] chain.  A
    request fails ([session.get], [raise_for_status], [r.json()] or
    [data["data"]] raises [e]), or it yields a page with its ["data"] and what the page says
    about further pages: ["has_more"] is falsy; or it is truthy and
    [data["next_page"]] raises [e] (the key is missing); or it is truthy and
    ["next_page"] is an address, given with the answer to it. *)
Inductive catalog : Type :=
| CatalogFails (e : exn)
| CatalogPage (data : list card) (more : continuation)
with continuation : Type :=
| NoMore
| MoreUnlinked (e : exn)
| More (next_page : string) (answer : catalog).

Scheme catalog_chain_ind := Induction for catalog Sort Prop
  with continuation_chain_ind := Induction for continuation Sort Prop.

(** The [while True] loop, entered with [cards], [url] and [params]: the
    events in order and the outcome. *)
Fixpoint fetch_pages (cards : list card) (url : string)
    (params : option (list (string * string))) (answer : catalog)
  : list event * Exc (list card) :=
  match answer with
  | CatalogFails e => ([Request url params], raise e)
  | CatalogPage data more =>
      let cards := cards ++ data in
      match more with
      | NoMore => ([Request url params], ret cards)
      | MoreUnlinked e => ([Request url params], raise e)
      | More next_page answer' =>
          let '(events, outcome) := fetch_pages cards next_page None answer' in
          (Request url params :: Pause :: events, outcome)
      end
  end.

Definition fetch_all_scryfall (answer : catalog) : list event * Exc (list card) :=
  fetch_pages [] SCRYFALL_API (Some query_params) answer.

(** The pages of a chain, up to its end or its first failure. *)
Fixpoint pages_of (answer : catalog) : list (list card) :=
  match answer with
  | CatalogFails _ => []
  | CatalogPage data more =>
      data :: match more with
              | More _ answer' => pages_of answer'
              | _ => []
              end
  end.

(** The failure a chain runs into, if any. *)
Fixpoint failure_of (answer : catalog) : option exn :=
  match answer with
  | CatalogFails e => Some e
  | CatalogPage _ NoMore => None
  | CatalogPage _ (MoreUnlinked e) => Some e
  | CatalogPage _ (More _ answer') => failure_of answer'
  end.

(** The addresses a chain links to, in order. *)
Fixpoint links_of (answer : catalog) : list string :=
  match answer with
  | CatalogPage _ (More next_page answer') => next_page :: links_of answer'
  | _ => []
  end.

End Catalog.

Export Catalog.

(** ** The metric address: [edhrec_route_url] *)

Module Route.

Definition is_lower (c : ascii) : bool := (97 <=? code c) && (code c <=? 122).

(** [_ALWAYS_SAFE]: letters, digits and [_.-~]. *)
Definition always_safe (c : ascii) : bool :=
  is_upper c || is_lower c || is_digit c
  || Ascii.eqb c "_" || Ascii.eqb c "." || Ascii.eqb c "-" || Ascii.eqb c "~".

(** One digit of ['%{:02X}']. *)
Definition hex_digit (n : nat) : ascii :=
  if n <? 10 then ascii_of_nat (48 + n) else ascii_of_nat (55 + n).

(** [urllib.parse.quote_plus(s)], on the UTF-8 bytes of [s]. *)
Fixpoint quote_plus (s : string) : string :=
  match s with
  | EmptyString => EmptyString
  | String c t =>
      if always_safe c then String c (quote_plus t)
      else if Ascii.eqb c " " then String "+" (quote_plus t)
      else String "%" (String (hex_digit (code c / 16))
                         (String (hex_digit (code c mod 16)) (quote_plus t)))
  end.

(** [related_uris] is [card.get("related_uris")], the one object-valued
    field read; [None] as a result stands for the [KeyError] of
    [card["name"]]. *)
Definition edhrec_route_url (related_uris : option (gmap string string))
    (c : card) : option string :=
  let related := default ∅ related_uris in
  match related !! "edhrec" with
  | Some uri => Some uri
  | None =>
      n ← c !! "name";
      Some (String.append "https://edhrec.com/route/?cc=" (quote_plus n))
  end.

(** [[Commander(name=c["name"], edhrec_route_url=edhrec_route_url(c))
      for c in pool]]; [None] stands for the [KeyError]. *)
Fixpoint commanders (related_uris : card -> option (gmap string string))
    (pool : list card) : option (list Commander) :=
  match pool with
  | [] => Some []
  | c :: pool =>
      n ← c !! "name";
      url ← edhrec_route_url (related_uris c) c;
      rest ← commanders related_uris pool;
      Some (mkCommander n url :: rest)
  end.

(** Decoding of [quote_plus], to tell its results apart. *)
Definition hex_value (c : ascii) : nat :=
  if is_digit c then code c - 48 else code c - 55.

Fixpoint unquote_plus (s : string) : string :=
  match s with
  | EmptyString => EmptyString
  | String "%" (String h (String l t)) =>
      String (ascii_of_nat (16 * hex_value h + hex_value l)) (unquote_plus t)
  | String "+" t => String " " (unquote_plus t)
  | String c t => String c (unquote_plus t)
  end.

End Route.

(** ** The report: the end of [main_async] *)

Module Report.

(** The key of [bottom.sort]: [(r.decks if r.decks is not None else big,
    r.name)]. *)
Definition sort_key (r : Result) : Z * string := (default big (decks r), name r).

(** [k1 < k2] on the keys, as tuples. *)
Definition key_lt (k1 k2 : Z * string) : bool :=
  if negb (k1.1 =? k2.1)%Z then (k1.1 <? k2.1)%Z else String.ltb k1.2 k2.2.

(** [list.sort] is stable: a result goes before the first one of the
    sorted rest whose key is not smaller. *)
Fixpoint insert_sorted (r : Result) (l : list Result) : list Result :=
  match l with
  | [] => [r]
  | y :: l' =>
      if key_lt (sort_key y) (sort_key r) then y :: insert_sorted r l'
      else r :: l
  end.

Fixpoint sort_bottom (l : list Result) : list Result :=
  match l with
  | [] => []
  | r :: l' => insert_sorted r (sort_bottom l')
  end.

(** [display = [r for r in bottom if (r.decks is not None) or
    args.include_errors]] *)
Definition shown (a : args) (r : Result) : bool :=
  bool_decide (decks r ≠ None) || include_errors a.

Definition display (a : args) (results : list Result) : Exc (list Result) :=
  do bottom <- bottom a results;
  ret (filter (fun r => shown a r) (sort_bottom bottom)).

(** [cutoff], when [display] is not empty. *)
Definition cutoff (display : list Result) : option Z :=
  r ← last display; Some (default 0%Z (decks r)).

(** The order of the keys, and of the results by their keys. *)
Definition key_le (k1 k2 : Z * string) : Prop := key_lt k2 k1 = false.

Definition report_le (r1 r2 : Result) : Prop :=
  key_le (sort_key r1) (sort_key r2).

End Report.

Export Report.

(** ** Dates *)

Module Calendar.

(** A date of the calendar: what [datetime.date] accepts. *)
Definition valid_date (d : date) : Prop :=
  (1 <= year d <= 9999 /\ 1 <= month d <= 12
   /\ 1 <= day d <= days_in_month (year d) (month d))%Z.

(** Calendar order. *)
Definition date_lt (d1 d2 : date) : Prop :=
  (year d1 < year d2
   \/ (year d1 = year d2
       /\ (month d1 < month d2 \/ (month d1 = month d2 /\ day d1 < day d2))))%Z.

Definition digit_char (n : Z) : ascii := ascii_of_nat (48 + Z.to_nat n).

(** [d.isoformat()]: ["%04d-%02d-%02d"]. *)
Definition isoformat (d : date) : string :=
  String (digit_char (year d / 1000))
    (String (digit_char (year d / 100 mod 10))
       (String (digit_char (year d / 10 mod 10))
          (String (digit_char (year d mod 10))
             (String "-"
                (String (digit_char (month d / 10))
                   (String (digit_char (month d mod 10))
                      (String "-"
                         (String (digit_char (day d / 10))
                            (String (digit_char (day d mod 10))
                               EmptyString))))))))).

End Calendar.

Export Calendar.

(** ** Filter options, one field changed *)

Module Options.

Definition set_exclude_doctors_companion (b : bool) (o : filter_options)
  : filter_options :=
  {| exclude_funny := exclude_funny o;
     exclude_partner := exclude_partner o;
     exclude_background := exclude_background o;
     exclude_companion := exclude_companion o;
     exclude_doctors_companion := b;
     exclude_vanilla := exclude_vanilla o;
     exclude_recent := exclude_recent o;
     recent_days := recent_days o;
     exclude_ptk := exclude_ptk o;
     ptk_strict := ptk_strict o;
     exclude_doctors := exclude_doctors o;
     concurrency := concurrency o |}.

(** The verdict of one round of the first pass, [false] if it raised. *)
Definition kept_by_first_pass (o : filter_options) (today_utc : date) (c : card)
  : bool :=
  match first_pass_keeps o today_utc c with
  | inr keep => keep
  | inl _ => false
  end.

(** Every character of a string satisfies [p]. *)
Fixpoint all_chars (p : ascii -> bool) (s : string) : bool :=
  match s with
  | EmptyString => true
  | String c t => p c && all_chars p t
  end.

(** The head of [t], if any, fails [p]. *)
Definition stops (p : ascii -> bool) (t : string) : Prop :=
  match t with
  | EmptyString => True
  | String c _ => p c = false
  end.

End Options.

Export Options.

(** ** The printings a strict check reads *)

Module Printings.

(** The printings of the pages of a chain, up to a failing request or a
    page without a usable link. *)
Fixpoint printings_read (answer : printings) : list (option string) :=
  match answer with
  | PageFails _ => []
  | LastPage data => data
  | Page data next_page answer' =>
      data ++ (if truthy (Some next_page) then printings_read answer' else [])
  end.

End Printings.

Export Printings.

(** ** More concrete cards *)

Module MoreExamples.

Definition with_text (text : string) (c : card) : card :=
  <["oracle_text" := text]> c.

Definition atraxa_text : card :=
  with_text "Flying, vigilance, deathtouch, lifelink" atraxa.

Definition sun_quan_text : card :=
  with_text "Creatures you control have horsemanship." sun_quan.

Definition clara : card :=
  with_text "Doctor's companion" (printing "Clara Oswald" "o-4" "Legendary Creature").

End MoreExamples.

Export MoreExamples.

(** ** The whole run: [main_async] *)

Module Pipeline.

(** What a run meets: the answers of the catalog, the current date, the
    printings and the [related_uris] of each card, the page of each
    commander, and the orders in which the scheduler completes the strict
    checks and the fetches. *)
Record world : Type := mkWorld {
  w_catalog : catalog;
  w_today : date;
  w_prints : card -> printings;
  w_related : card -> option (gmap string string);
  w_pages : Commander -> response;
  w_checks_completed : list card -> list card;
  w_fetches_completed : list (Exc Result) -> list (Exc Result)
}.

(** How a run ends: with the report [display] it then prints or saves,
    with an exception of [exn], with the [KeyError] of a missing key, or
    never (every fetch waits for a slot of a semaphore that has none).
    [args.delay] is a finite number of seconds: the pause of a fetch
    ends. *)
Inductive outcome : Type :=
| Finished (display : list Result)
| Aborted (e : exn)
| MissingKey (key : string)
| Hangs.

(** [date.max.toordinal()] *)
Definition MAXORDINAL : Z := 3652059.

(** The cutoff shown on [stderr]:
    [(datetime.now(UTC).date() - timedelta(days=args.recent_days)).isoformat()],
    computed when recency is on and the window is positive.  Only whether
    it raises matters to the run. *)
Definition cutoff_notice (today_utc : date) (a : args) : Exc unit :=
  if negb (include_recent a) && (0 <? args_recent_days a)%Z then
    do window <- timedelta (args_recent_days a);
    let o := (toordinal today_utc - window)%Z in
    if ((0 <? o) && (o <=? MAXORDINAL))%Z then ret tt
    else raise (Exn OverflowError "date value out of range")
  else ret tt.

(** The [for coro in asyncio.as_completed(tasks)] loop: [res = await coro]
    and one round. *)
Fixpoint await_loop (a : args) (st : list item * Z) (coros : list (Exc Result))
  : Exc (list item * Z) :=
  match coros with
  | [] => ret st
  | coro :: coros =>
      do res <- coro;
      do st <- main_async_step a st res;
      await_loop a st coros
  end.

Definition main_async (w : world) (a : args) : outcome :=
  match (fetch_all_scryfall (w_catalog w)).2 with
  | inl e => Aborted e
  | inr cards =>
  let pool := collapse_by_oracle cards in
  match cutoff_notice (w_today w) a with
  | inl e => Aborted e
  | inr _ =>
  match apply_filters_async (w_today w) (w_prints w) (w_checks_completed w)
          pool (filter_options_of a) with
  | inl e => Aborted e
  | inr pool =>
  match fetch_semaphore a with
  | inl e => Aborted e
  | inr sem =>
  match Route.commanders (w_related w) pool with
  | None => MissingKey "name"
  | Some commanders =>
  let tasks := map (fun cmdr => fetch_deck_count (w_pages w cmdr) cmdr) commanders in
  if (sem =? 0)%Z && negb (bool_decide (tasks = [])) then Hangs
  else
  match await_loop a ([], 0%Z) (w_fetches_completed w tasks) with
  | inl e => Aborted e
  | inr st =>
      let bottom := map (fun t : item => t.2) st.1 in
      Finished (filter (fun r => shown a r) (sort_bottom bottom))
  end end end end end end.

(** The scheduler completes each task once. *)
Definition completes_each_once (w : world) : Prop :=
  (forall l, w_checks_completed w l ≡ₚ l)
  /\ (forall l, w_fetches_completed w l ≡ₚ l).

End Pipeline.

Export Pipeline.

(* ===================================================================== *)
(** * The definitions at work *)
(* ===================================================================== *)

(** Five results with the metrics [50, <error>, 10, 5, 5] and K = 3: the
    heap at the end of the stream, errored items excluded and included. *)
Example five_excluding_errors :
  final_heap (run 3 false false) five
  = ret [(-10, 2, fetched "c" 10); (-5, 3, fetched "d" 5); (-5, 4, fetched "e" 5)]%Z.
Proof. reflexivity. Qed.

Example five_including_errors :
  bottom (run 3 false true) five = ret [fetched "d" 5; fetched "e" 5; failed "b"].
Proof. reflexivity. Qed.

(** A negative K: every push is undone at once. *)
Example negative_k : final_heap (run (-1) false false) five = ret [].
Proof. reflexivity. Qed.

(** A result without a metric against one with 50 decks, K = 1: it is
    evicted when errored items are excluded and kept when they are
    included.  Against a later result with 0 decks it loses the tie. *)
Example absent_metric_excluded :
  bottom (run 1 false false) [fetched "a" 50; failed "b"] = ret [fetched "a" 50].
Proof. reflexivity. Qed.

Example absent_metric_included :
  bottom (run 1 false true) [fetched "a" 50; failed "b"] = ret [failed "b"].
Proof. reflexivity. Qed.

Example absent_metric_tie :
  bottom (run 1 false true) [failed "b"; fetched "z" 0] = ret [fetched "z" 0].
Proof. reflexivity. Qed.

(** Without distinct sequence numbers the comparison of two items would
    reach the results and raise. *)
Example item_lt_same_seq :
  item_lt (-5, 0, fetched "a" 5)%Z (-5, 0, fetched "b" 5)%Z
  = raise (Exn TypeError
             "'<' not supported between instances of 'Result' and 'Result'").
Proof. reflexivity. Qed.

Example extract_grouped :
  extract_deck_count "<span>1,234  Decks</span>" = ret (Some 1234%Z).
Proof. reflexivity. Qed.

Example extract_leftmost :
  extract_deck_count "12 34 cards, 7 decks, 9 decks" = ret (Some 7%Z).
Proof. reflexivity. Qed.

Example extract_no_match : extract_deck_count "2,000 deck" = ret None.
Proof. reflexivity. Qed.

Example strptime_leap_day : strptime_date "2024-02-29" = ret (mkDate 2024 2 29).
Proof. reflexivity. Qed.

Example strptime_no_leap_day :
  strptime_date "2023-02-29" = raise (Exn ValueError "day is out of range for month").
Proof. reflexivity. Qed.

Example strptime_short_fields : strptime_date "2023-2-9" = ret (mkDate 2023 2 9).
Proof. reflexivity. Qed.

Example strptime_trailing :
  strptime_date "2023-12-31T00:00" = raise (Exn ValueError "unconverted data remains").
Proof. reflexivity. Qed.

Example toordinal_today : toordinal today = 739924%Z.
Proof. reflexivity. Qed.

Example recent_inside_window :
  is_recent today (<["released_at" := "2026-09-01"]> atraxa) 90 = ret true.
Proof. reflexivity. Qed.

Example recent_outside_window :
  is_recent today (<["released_at" := "2026-01-01"]> atraxa) 90 = ret false.
Proof. reflexivity. Qed.

Example recent_window_overflow :
  is_recent today (<["released_at" := "2026-01-01"]> atraxa) (10 ^ 9)
  = raise (Exn OverflowError "days out of range for timedelta").
Proof. reflexivity. Qed.

Example collapse_reprints :
  collapse_by_oracle [token; atraxa; sun_quan; atraxa_promo] = [atraxa; sun_quan].
Proof. reflexivity. Qed.

Example strict_without_uri :
  is_ptk_strict
    (Page [Some "m3c"] "https://api.scryfall.com/p2" (LastPage [Some "PTK"])) atraxa
  = ret (looks_like_ptk_fast atraxa).
Proof. reflexivity. Qed.

Example strict_scans_pages :
  is_ptk_strict
    (Page [Some "m3c"] "https://api.scryfall.com/p2" (LastPage [Some "PTK"])) sun_quan
  = ret true.
Proof. reflexivity. Qed.

(* ===================================================================== *)
(** * Proofs: the heap *)
(* ===================================================================== *)

Lemma parentpos_spec i : 0 < i -> i = 2 * parentpos i + 1 \/ i = 2 * parentpos i + 2.
Proof.
  intros Hi. unfold parentpos.
  pose proof (Nat.div_mod_eq (i - 1) 2) as E.
  pose proof (Nat.mod_upper_bound (i - 1) 2) as B. lia.
Qed.

Ltac parent_facts :=
  repeat match goal with
    | |- context [parentpos ?i] =>
        lazymatch goal with
        | _ : 0 < i -> i = 2 * parentpos i + 1 \/ _ |- _ => fail
        | _ => pose proof (parentpos_spec i)
        end
    | _ : context [parentpos ?i] |- _ =>
        lazymatch goal with
        | _ : 0 < i -> i = 2 * parentpos i + 1 \/ _ |- _ => fail
        | _ => pose proof (parentpos_spec i)
        end
    end.
Ltac plia := parent_facts; lia.

Section ListFacts.
Context {A : Type}.
Implicit Types l : list A.

Lemma insert_cons_perm l j (x y : A) :
  l !! j = Some y -> y :: <[j := x]> l ≡ₚ x :: l.
Proof.
  revert j. induction l as [|b l IH]; intros [|j] H; simplify_eq/=.
  - apply perm_swap.
  - rewrite perm_swap. rewrite (IH _ H). apply perm_swap.
Qed.

Lemma swap_perm l i j (x y : A) :
  i ≠ j -> l !! i = Some x -> l !! j = Some y ->
  <[i := y]> (<[j := x]> l) ≡ₚ l.
Proof.
  revert i j. induction l as [|a l IH]; intros [|i] [|j] Hne Hi Hj; simplify_eq/=.
  - by apply insert_cons_perm.
  - by apply insert_cons_perm.
  - f_equiv. apply IH; auto.
Qed.

Lemma NoDup_fmap_lookup {B} (f : A -> B) l i j x y :
  NoDup (f <$> l) -> l !! i = Some x -> l !! j = Some y -> i ≠ j -> f x ≠ f y.
Proof.
  intros Hnd Hi Hj Hne E. apply Hne.
  apply (NoDup_lookup (f <$> l) i j (f x) Hnd); rewrite list_lookup_fmap.
  - by rewrite Hi.
  - by rewrite Hj, E.
Qed.

Lemma NoDup_fmap_elem_inj {B} (f : A -> B) l x y :
  NoDup (f <$> l) -> x ∈ l -> y ∈ l -> f x = f y -> x = y.
Proof.
  intros Hnd [i Hi]%list_elem_of_lookup [j Hj]%list_elem_of_lookup E.
  destruct (decide (i = j)) as [->|Hne]; [congruence|].
  by destruct (NoDup_fmap_lookup f l i j x y).
Qed.
End ListFacts.

Section MonadFacts.
Lemma getitem_ret {A} (l : list A) i x : l !! i = Some x -> getitem l i = ret x.
Proof. unfold getitem. by intros ->. Qed.
Lemma getitem_inv {A} (l : list A) i x : getitem l i = inr x -> l !! i = Some x.
Proof. unfold getitem. destruct (l !! i); unfold ret, raise; congruence. Qed.
Lemma getitem_fail {A} (l : list A) i e : getitem l i = inl e -> length l <= i.
Proof.
  unfold getitem. destruct (l !! i) eqn:E; [discriminate|].
  intros _. by apply lookup_ge_None.
Qed.
Lemma setitem_ret {A} (l : list A) i x : i < length l -> setitem l i x = ret (<[i := x]> l).
Proof. unfold setitem. intros H. by rewrite decide_True. Qed.
Lemma setitem_inv {A} (l l' : list A) i x :
  setitem l i x = inr l' -> i < length l /\ l' = <[i := x]> l.
Proof.
  unfold setitem. case_decide; unfold ret, raise; intros E;
    [by injection E as <-|discriminate E].
Qed.
Lemma setitem_fail {A} (l : list A) i x e : setitem l i x = inl e -> length l <= i.
Proof. unfold setitem. case_decide; unfold ret; intros E; [discriminate E|lia]. Qed.
End MonadFacts.

Section HeapProofs.
Context {A T : Type} (lt : A -> A -> Exc bool) (le : A -> A -> Prop) (tag : A -> T).
Hypothesis le_refl : forall x, le x x.
Hypothesis le_trans : forall x y z, le x y -> le y z -> le x z.
Hypothesis lt_le : forall x y,
  tag x ≠ tag y -> exists b, lt x y = ret b /\ if b then le x y else le y x.

Lemma siftdown_loop_correct (h : list A) startpos pos newitem :
  startpos = 0 -> pos < length h ->
  NoDup (tag <$> <[pos := newitem]> h) ->
  hole_inv le h pos newitem ->
  exists h', _siftdown_loop lt h startpos pos newitem = ret h'
             /\ heap_ok le h' /\ h' ≡ₚ <[pos := newitem]> h.
Proof.
  funelim (_siftdown_loop lt h startpos pos newitem); intros -> Hlen Hnd Hinv.
  - (* the loop ends at the root *)
    assert (pos = 0) as -> by lia.
    rewrite setitem_ret by done. eexists; split; [done|split; [|done]].
    intros i x y Hi Hx Hy.
    rewrite list_lookup_insert_ne in Hx by lia.
    destruct (decide (parentpos i = 0)) as [E|E].
    + rewrite E, list_lookup_insert_eq in Hy by done. simplify_eq.
      eapply hole_children; eauto.
    + rewrite list_lookup_insert_ne in Hy by lia.
      eapply hole_others; eauto. lia.
  - (* the parent is out of range: impossible *)
    apply getitem_fail in Heq. plia.
  - (* the comparison raises: impossible *)
    apply getitem_inv in Heq0.
    destruct (lt_le newitem parent) as (b & Hb & _); [|unfold ret in *; congruence].
    eapply (NoDup_fmap_lookup tag (<[pos := newitem]> heap) pos (parentpos pos)); eauto.
    + by apply list_lookup_insert_eq.
    + rewrite list_lookup_insert_ne by plia. done.
    + plia.
  - (* newitem is not smaller than its parent: it stays *)
    apply getitem_inv in Heq0.
    assert (le parent newitem) as Hle.
    { destruct (lt_le newitem parent) as (b & Hb & Hle).
      - eapply (NoDup_fmap_lookup tag (<[pos := newitem]> heap) pos (parentpos pos)); eauto.
        + by apply list_lookup_insert_eq.
        + rewrite list_lookup_insert_ne by plia. done.
        + plia.
      - rewrite Heq in Hb. by injection Hb as <-. }
    rewrite setitem_ret by done. eexists; split; [done|split; [|done]].
    intros i x y Hi Hx Hy.
    destruct (decide (i = pos)) as [->|Hne].
    + rewrite list_lookup_insert_eq in Hx by done.
      rewrite list_lookup_insert_ne in Hy by plia. by simplify_eq.
    + rewrite list_lookup_insert_ne in Hx by done.
      destruct (decide (parentpos i = pos)) as [E|E].
      * rewrite E, list_lookup_insert_eq in Hy by done. simplify_eq.
        eapply hole_children; eauto.
      * rewrite list_lookup_insert_ne in Hy by done.
        eapply hole_others; eauto.
  - (* the store is out of range: impossible *)
    apply setitem_fail in Heq. lia.
  - (* the parent moves down and the loop goes on *)
    apply getitem_inv in Heq1. apply setitem_inv in Heq as [_ ->].
    assert (le newitem parent) as Hle.
    { destruct (lt_le newitem parent) as (b & Hb & Hle).
      - eapply (NoDup_fmap_lookup tag (<[pos := newitem]> heap) pos (parentpos pos)); eauto.
        + by apply list_lookup_insert_eq.
        + rewrite list_lookup_insert_ne by plia. done.
        + plia.
      - rewrite Heq0 in Hb. by injection Hb as <-. }
    assert (parentpos pos < pos) as Hpp by plia.
    assert (<[parentpos pos := newitem]> (<[pos := parent]> heap)
            ≡ₚ <[pos := newitem]> heap) as Hperm.
    { rewrite <- (list_insert_insert_eq heap pos parent newitem).
      apply swap_perm; [lia| |].
      - rewrite list_lookup_insert_ne by lia. done.
      - by apply list_lookup_insert_eq. }
    destruct (H eq_refl) as (h' & Hrun & Hok & Hp).
    + rewrite length_insert. lia.
    + by rewrite Hperm.
    + split.
      * intros i x y Hi Hne1 Hne2 Hx Hy.
        assert (i ≠ pos) by (intros ->; done).
        rewrite list_lookup_insert_ne in Hx by done.
        destruct (decide (parentpos i = pos)) as [E|E].
        -- rewrite E, list_lookup_insert_eq in Hy by done. simplify_eq.
           eapply hole_grand; eauto.
        -- rewrite list_lookup_insert_ne in Hy by done.
           eapply hole_others; eauto.
      * intros i x Hi Hpar Hx.
        destruct (decide (i = pos)) as [->|Hne].
        -- rewrite list_lookup_insert_eq in Hx by done. by simplify_eq.
        -- rewrite list_lookup_insert_ne in Hx by done.
           eapply le_trans; [exact Hle|].
           eapply (hole_others le heap pos newitem Hinv i); eauto; try lia.
           by rewrite Hpar.
      * intros i x y Hi Hpar Hpos Hx Hy.
        rewrite list_lookup_insert_ne in Hy by plia.
        assert (le y parent) as Hyp.
        { eapply (hole_others le heap pos newitem Hinv (parentpos pos)); eauto; plia. }
        destruct (decide (i = pos)) as [->|Hne].
        -- rewrite list_lookup_insert_eq in Hx by done. by simplify_eq.
        -- rewrite list_lookup_insert_ne in Hx by done.
           eapply le_trans; [exact Hyp|].
           eapply (hole_others le heap pos newitem Hinv i); eauto; try lia.
           by rewrite Hpar.
    + exists h'. split; [done|split; [done|]]. by rewrite Hp.
Qed.

Lemma tags_differ (h : list A) i j x y :
  NoDup (tag <$> h) -> h !! i = Some x -> h !! j = Some y -> i ≠ j ->
  tag x ≠ tag y.
Proof. apply NoDup_fmap_lookup. Qed.

(** The choice of the child that moves up. *)
Lemma choose_child (h : list A) pos newitem side :
  pos < length h ->
  2 * pos + 1 < length h ->
  NoDup (tag <$> <[pos := newitem]> h) ->
  (if decide (2 * pos + 1 + 1 < length h)
   then do l <- getitem h (2 * pos + 1);
        do r <- getitem h (2 * pos + 1 + 1);
        do b <- lt l r;
        ret (if b then 0 else 1)
   else ret 0) = inr side ->
  side <= 1 /\ exists child, h !! (2 * pos + 1 + side) = Some child
    /\ forall j y, 0 < j -> parentpos j = pos -> h !! j = Some y -> le child y.
Proof.
  intros Hpos Hleft Hnd Hside.
  destruct (lookup_lt_is_Some_2 h (2 * pos + 1)) as [l Hl]; [done|].
  case_decide as Hright.
  - destruct (lookup_lt_is_Some_2 h (2 * pos + 1 + 1)) as [r Hr]; [done|].
    rewrite (getitem_ret _ _ _ Hl), (getitem_ret _ _ _ Hr) in Hside. simpl in Hside.
    destruct (lt_le l r) as (b & Hb & Hle).
    { eapply (tags_differ (<[pos := newitem]> h) (2 * pos + 1) (2 * pos + 1 + 1));
        [done| | |lia]; by rewrite list_lookup_insert_ne by lia. }
    rewrite Hb in Hside. simpl in Hside. injection Hside as <-.
    destruct b.
    + split; [lia|]. exists l. rewrite Nat.add_0_r. split; [done|].
      intros j y Hj Hpar Hy.
      assert (j = 2 * pos + 1 \/ j = 2 * pos + 1 + 1) as [->| ->] by plia;
        by simplify_eq.
    + split; [lia|]. exists r. split; [done|].
      intros j y Hj Hpar Hy.
      assert (j = 2 * pos + 1 \/ j = 2 * pos + 1 + 1) as [->| ->] by plia;
        by simplify_eq.
  - injection Hside as <-. split; [lia|].
    exists l. rewrite Nat.add_0_r. split; [done|].
    intros j y Hj Hpar Hy. apply lookup_lt_Some in Hy as Hlt.
    assert (j = 2 * pos + 1) as -> by plia. by simplify_eq.
Qed.

Lemma choose_child_total (h : list A) pos newitem e :
  pos < length h ->
  2 * pos + 1 < length h ->
  NoDup (tag <$> <[pos := newitem]> h) ->
  (if decide (2 * pos + 1 + 1 < length h)
   then do l <- getitem h (2 * pos + 1);
        do r <- getitem h (2 * pos + 1 + 1);
        do b <- lt l r;
        ret (if b then 0 else 1)
   else ret 0) = inl e -> False.
Proof.
  intros Hpos Hleft Hnd Hside.
  destruct (lookup_lt_is_Some_2 h (2 * pos + 1)) as [l Hl]; [done|].
  case_decide as Hright; [|done].
  destruct (lookup_lt_is_Some_2 h (2 * pos + 1 + 1)) as [r Hr]; [done|].
  rewrite (getitem_ret _ _ _ Hl), (getitem_ret _ _ _ Hr) in Hside. simpl in Hside.
  destruct (lt_le l r) as (b & Hb & Hle).
  { eapply (tags_differ (<[pos := newitem]> h) (2 * pos + 1) (2 * pos + 1 + 1));
      [done| | |lia]; by rewrite list_lookup_insert_ne by lia. }
  rewrite Hb in Hside. done.
Qed.

Lemma siftup_loop_correct (h : list A) endpos pos newitem :
  endpos = length h -> pos < length h ->
  NoDup (tag <$> <[pos := newitem]> h) ->
  sink_inv le h pos ->
  exists h' pos', _siftup_loop lt h endpos pos = ret (h', pos')
    /\ length h' = length h /\ pos' < length h /\ length h <= 2 * pos' + 1
    /\ <[pos' := newitem]> h' ≡ₚ <[pos := newitem]> h
    /\ sink_inv le h' pos'.
Proof.
  funelim (_siftup_loop lt h endpos pos); intros -> Hlen Hnd Hinv.
  - (* the hole is at a leaf *)
    exists heap, pos. split_and!; [done|done|done|lia|done|done].
  - (* choosing the child raises: impossible *)
    by apply (choose_child_total heap pos newitem) in Heq.
  - (* the child is out of range: impossible *)
    apply (choose_child heap pos newitem) in Heq0 as (_ & child & Hc & _); [|done..].
    by rewrite (getitem_ret _ _ _ Hc) in Heq.
  - (* the store is out of range: impossible *)
    apply setitem_fail in Heq. lia.
  - (* the child moves up and the loop goes on *)
    apply getitem_inv in Heq0. apply setitem_inv in Heq as [_ ->].
    apply (choose_child heap pos newitem) in Heq1 as (Hside & child' & Hc & Hmin);
      [|done..].
    assert (child' = child) as -> by congruence.
    set (c := 2 * pos + 1 + side) in *.
    assert (parentpos c = pos /\ pos < c /\ c < length heap) as (Hpc & Hlt & Hclen).
    { apply lookup_lt_Some in Hc. subst c. plia. }
    assert (<[c := newitem]> (<[pos := child]> heap)
            ≡ₚ <[pos := newitem]> heap) as Hperm.
    { rewrite <- (list_insert_insert_eq heap pos child newitem).
      apply swap_perm; [lia| |].
      - rewrite list_lookup_insert_ne by lia. done.
      - by apply list_lookup_insert_eq. }
    destruct (H newitem) as (h' & pos' & Hrun & Hl' & Hp' & Hleaf & Hp & Hinv').
    + by rewrite length_insert.
    + by rewrite length_insert.
    + by rewrite Hperm.
    + split.
      * intros i x y Hi Hne1 Hne2 Hx Hy.
        destruct (decide (i = pos)) as [->|Hne].
        -- rewrite list_lookup_insert_eq in Hx by done.
           rewrite list_lookup_insert_ne in Hy by plia. simplify_eq.
           eapply (sink_grand le heap pos Hinv c); eauto. lia.
        -- rewrite list_lookup_insert_ne in Hx by done.
           destruct (decide (parentpos i = pos)) as [E|E].
           ++ rewrite E, list_lookup_insert_eq in Hy by done. simplify_eq.
              eapply Hmin; eauto.
           ++ rewrite list_lookup_insert_ne in Hy by done.
              eapply sink_others; eauto.
      * intros i x y Hi Hpar Hpos Hx Hy.
        rewrite Hpc, list_lookup_insert_eq in Hy by done.
        rewrite list_lookup_insert_ne in Hx by plia. injection Hy as <-.
        apply (sink_others le heap pos Hinv i x child);
          [lia|plia|plia|done|by rewrite Hpar].
    + rewrite length_insert in *. exists h', pos'.
      split_and!; [done..|by rewrite Hp|done].
Qed.

Lemma heap_ok_hole (h : list A) pos x :
  heap_ok le h -> length h <= 2 * pos + 1 -> hole_inv le h pos x.
Proof.
  intros Hok Hleaf. split.
  - intros i a b Hi _ _ Ha Hb. by eapply Hok.
  - intros i a Hi Hpar Ha. apply lookup_lt_Some in Ha. plia.
  - intros i a b Hi Hpar _ Ha _. apply lookup_lt_Some in Ha. plia.
Qed.

Lemma sink_inv_leaf (h : list A) pos x :
  sink_inv le h pos -> length h <= 2 * pos + 1 -> hole_inv le h pos x.
Proof.
  intros [Ho Hg] Hleaf. split; [done| |done].
  intros i a Hi Hpar Ha. apply lookup_lt_Some in Ha. plia.
Qed.

Lemma hole_inv_insert (h : list A) pos x v :
  hole_inv le h pos x -> hole_inv le (<[pos := v]> h) pos x.
Proof.
  intros [Ho Hc Hg]. split.
  - intros i a b Hi H1 H2. rewrite !list_lookup_insert_ne by done. by apply Ho.
  - intros i a Hi Hpar. rewrite list_lookup_insert_ne by plia. by apply Hc.
  - intros i a b Hi Hpar Hpos. rewrite !list_lookup_insert_ne by plia.
    by apply Hg.
Qed.

Lemma siftdown_correct (h : list A) pos x :
  h !! pos = Some x -> NoDup (tag <$> h) -> hole_inv le h pos x ->
  exists h', _siftdown lt h 0 pos = ret h' /\ heap_ok le h' /\ h' ≡ₚ h.
Proof.
  intros Hx Hnd Hinv. unfold _siftdown.
  rewrite (getitem_ret _ _ _ Hx). simpl.
  destruct (siftdown_loop_correct h 0 pos x) as (h' & Hrun & Hok & Hp);
    [done|by eapply lookup_lt_Some|by rewrite list_insert_id|done|].
  exists h'. by rewrite list_insert_id in Hp.
Qed.

Lemma heappush_correct (h : list A) x :
  heap_ok le h -> NoDup (tag <$> x :: h) ->
  exists h', heappush lt h x = ret h' /\ heap_ok le h' /\ h' ≡ₚ x :: h.
Proof.
  intros Hok Hnd. unfold heappush.
  assert (h ++ [x] ≡ₚ x :: h) as Hp by (by rewrite Permutation_app_comm).
  assert (length (h ++ [x]) - 1 = length h) as -> by (rewrite length_app; simpl; lia).
  destruct (siftdown_correct (h ++ [x]) (length h) x) as (h' & Hrun & Hok' & Hp').
  - by rewrite lookup_app_r, Nat.sub_diag.
  - by rewrite Hp.
  - split.
    + intros i a b Hi H1 H2 Ha Hb.
      apply lookup_lt_Some in Ha as Hlt. rewrite length_app in Hlt. simpl in Hlt.
      rewrite lookup_app_l in Ha by lia. rewrite lookup_app_l in Hb by plia.
      by eapply Hok.
    + intros i a Hi Hpar Ha. apply lookup_lt_Some in Ha.
      rewrite length_app in Ha. simpl in Ha. plia.
    + intros i a b Hi Hpar _ Ha _. apply lookup_lt_Some in Ha.
      rewrite length_app in Ha. simpl in Ha. plia.
  - exists h'. split; [done|split; [done|]]. by rewrite Hp', Hp.
Qed.

Lemma heap_ok_root (h : list A) m :
  heap_ok le h -> h !! 0 = Some m -> forall x, x ∈ h -> le m x.
Proof.
  intros Hok Hm x [i Hx]%list_elem_of_lookup. revert x Hx.
  induction (lt_wf i) as [i _ IH]. intros x Hx.
  destruct (decide (i = 0)) as [->|Hne]; [by simplify_eq|].
  assert (parentpos i < i) as Hlt by plia.
  destruct (lookup_lt_is_Some_2 h (parentpos i)) as [y Hy].
  { apply lookup_lt_Some in Hx. lia. }
  eapply le_trans; [by apply (IH (parentpos i))|].
  apply (Hok i x y); [lia|done|done].
Qed.

Lemma siftup_correct (h : list A) x :
  h !! 0 = Some x -> NoDup (tag <$> h) -> sink_inv le h 0 ->
  exists h', _siftup lt h 0 = ret h' /\ heap_ok le h' /\ h' ≡ₚ h.
Proof.
  intros Hx Hnd Hinv. unfold _siftup.
  rewrite (getitem_ret _ _ _ Hx). simpl.
  apply lookup_lt_Some in Hx as Hlen.
  destruct (siftup_loop_correct h (length h) 0 x)
    as (h1 & pos & Hrun & Hl1 & Hpos & Hleaf & Hp & Hinv1);
    [done|lia|by rewrite list_insert_id|done|].
  rewrite (list_insert_id h 0 x) in Hp by done.
  rewrite Hrun. simpl. rewrite setitem_ret by lia. simpl.
  destruct (siftdown_correct (<[pos := x]> h1) pos x) as (h2 & Hrun2 & Hok & Hp2).
  - apply list_lookup_insert_eq. lia.
  - by rewrite Hp.
  - apply hole_inv_insert, sink_inv_leaf; [done|lia].
  - exists h2. rewrite Hrun2. split; [done|split; [done|]]. by rewrite Hp2.
Qed.

Lemma heappop_correct (h : list A) :
  heap_ok le h -> NoDup (tag <$> h) -> h ≠ [] ->
  exists m h', heappop lt h = ret (m, h') /\ heap_ok le h'
    /\ h ≡ₚ m :: h' /\ forall x, x ∈ h -> le m x.
Proof.
  intros Hok Hnd Hne. unfold heappop, pop.
  destruct (exists_last Hne) as (l & lastelt & ->).
  rewrite last_snoc, removelast_last. simpl.
  destruct l as [|returnitem l]; simpl.
  - exists lastelt, []. split_and!; [done| |done|].
    + intros i x y _ Hx. by rewrite lookup_nil in Hx.
    + intros x ->%list_elem_of_singleton. done.
  - destruct (siftup_correct (lastelt :: l) lastelt) as (h' & Hrun & Hok' & Hp).
    + done.
    + simpl in Hnd. rewrite fmap_app in Hnd. simpl in *.
      apply NoDup_cons_1_2 in Hnd.
      rewrite <- Permutation_cons_append in Hnd. done.
    + split.
      * intros i x y Hi _ Hpar Hx Hy.
        apply (Hok i x y Hi).
        -- destruct i; [lia|]. simpl in *. by apply lookup_app_l_Some.
        -- destruct (parentpos i) eqn:E; [done|]. simpl in *.
           by apply lookup_app_l_Some.
      * intros; lia.
    + rewrite Hrun. simpl.
      exists returnitem, h'. split_and!; [done|done| |].
      * rewrite Hp. rewrite <- Permutation_cons_append. done.
      * by apply heap_ok_root.
Qed.
End HeapProofs.

(* ===================================================================== *)
(** * Proofs: the bottom-K reduction *)
(* ===================================================================== *)

(** ** The order on heap items *)

Section Items.
Implicit Types x y z e : item.

Lemma item_leb_le x y : item_leb x y = true <-> item_le x y.
Proof.
  unfold item_leb, item_le.
  rewrite orb_true_iff, andb_true_iff, Z.ltb_lt, Z.eqb_eq, Z.leb_le. done.
Qed.

Lemma item_le_refl x : item_le x x.
Proof. unfold item_le. lia. Qed.

Lemma item_le_trans x y z : item_le x y -> item_le y z -> item_le x z.
Proof. unfold item_le. lia. Qed.

Lemma item_le_total x y : item_le x y \/ item_le y x.
Proof. unfold item_le. lia. Qed.

Lemma item_le_antisym x y : item_le x y -> item_le y x -> item_tag x = item_tag y.
Proof. unfold item_le, item_tag. lia. Qed.

(** Items with distinct sequence numbers compare without raising. *)
Lemma item_lt_le x y :
  item_tag x ≠ item_tag y ->
  exists b, item_lt x y = ret b /\ if b then item_le x y else item_le y x.
Proof.
  destruct x as [[xv xs] xr], y as [[yv ys] yr].
  unfold item_tag, item_lt, item_le. simpl. intros Hne.
  destruct (Z.eqb_spec xv yv) as [->|Hv]; simpl.
  - destruct (Z.eqb_spec xs ys) as [->|Hs]; [done|]. simpl.
    exists (xs <? ys)%Z. split; [done|].
    destruct (Z.ltb_spec xs ys); lia.
  - exists (xv <? yv)%Z. split; [done|].
    destruct (Z.ltb_spec xv yv); lia.
Qed.

Lemma insert_item_perm e l : insert_item e l ≡ₚ e :: l.
Proof.
  induction l as [|y l IH]; simpl; [done|].
  destruct (item_leb y e); [done|]. by rewrite IH, perm_swap.
Qed.

Lemma insert_item_length e l : length (insert_item e l) = S (length l).
Proof. by rewrite insert_item_perm. Qed.

Lemma insert_item_sorted e l :
  StronglySorted (flip item_le) l -> StronglySorted (flip item_le) (insert_item e l).
Proof.
  induction 1 as [|y l Hs IH Hall]; simpl.
  - repeat constructor.
  - destruct (item_leb y e) eqn:E.
    + apply item_leb_le in E. constructor; [by constructor|].
      constructor; [done|].
      eapply Forall_impl; [exact Hall|]. intros z Hz. unfold flip in *.
      by eapply item_le_trans.
    + constructor; [done|].
      rewrite insert_item_perm. constructor; [|done].
      unfold flip. destruct (item_le_total y e) as [H|H]; [|done].
      apply item_leb_le in H. congruence.
Qed.

Lemma take_insert_item k e l :
  take k (insert_item e l) = take k (insert_item e (take k l)).
Proof.
  revert k. induction l as [|y l IH]; intros [|k]; simpl; try done.
  destruct (item_leb y e); simpl.
  - f_equal. destruct k; simpl; [done|].
    by rewrite take_take, Nat.min_l by lia.
  - by rewrite IH.
Qed.

Lemma sorted_last_least l z x :
  StronglySorted (flip item_le) (l ++ [z]) -> x ∈ l ++ [z] -> item_le z x.
Proof.
  induction l as [|y l IH]; simpl; intros Hs Hx.
  - apply list_elem_of_singleton in Hx as ->. apply item_le_refl.
  - apply StronglySorted_inv in Hs as [Hs Hall].
    apply elem_of_cons in Hx as [->|Hx]; [|by apply IH].
    rewrite Forall_forall in Hall. apply Hall. set_solver.
Qed.

Lemma insert_item_results a (seq : Z) res l :
  Forall (fun x : item => (item_tag x < seq)%Z /\ x.1.1 = (- rank_key a x.2)%Z) l ->
  (insert_item (- rank_key a res, seq, res)%Z l).*2 = insert_by_rank a res l.*2.
Proof.
  induction 1 as [|y l [Hy1 Hy2] Hall IH]; simpl; [done|].
  assert (item_leb y (- rank_key a res, seq, res)%Z
          = (rank_key a res <=? rank_key a y.2)%Z) as ->.
  { unfold item_leb, item_tag in *. simpl. rewrite Hy2.
    destruct (Z.leb_spec (rank_key a res) (rank_key a y.2));
    destruct (Z.ltb_spec (- rank_key a y.2) (- rank_key a res));
    destruct (Z.eqb_spec (- rank_key a y.2) (- rank_key a res));
    destruct (Z.leb_spec y.1.2 seq); simpl; lia. }
  destruct (rank_key a res <=? rank_key a y.2)%Z; simpl; [done|].
  f_equal. exact IH.
Qed.
End Items.

(** ** The full sort *)

Section Sorting.
Context (a : args).

Lemma insert_by_rank_perm res l : insert_by_rank a res l ≡ₚ res :: l.
Proof.
  induction l as [|y l IH]; simpl; [done|].
  destruct (rank_key a res <=? rank_key a y)%Z; [done|].
  by rewrite IH, perm_swap.
Qed.

Lemma sort_by_rank_perm l : sort_by_rank a l ≡ₚ l.
Proof.
  induction l as [|x l IH]; simpl; [done|].
  by rewrite insert_by_rank_perm, IH.
Qed.

Lemma insert_by_rank_sorted res l :
  StronglySorted (rank_le a) l -> StronglySorted (rank_le a) (insert_by_rank a res l).
Proof.
  induction 1 as [|y l Hs IH Hall]; simpl.
  - repeat constructor.
  - destruct (Z.leb_spec (rank_key a res) (rank_key a y)).
    + constructor; [by constructor|]. constructor; [done|].
      eapply Forall_impl; [exact Hall|]. unfold rank_le. intros; lia.
    + constructor; [done|]. rewrite insert_by_rank_perm.
      constructor; [unfold rank_le; lia|done].
Qed.

Lemma sort_by_rank_sorted l : StronglySorted (rank_le a) (sort_by_rank a l).
Proof.
  induction l; simpl; [constructor|by apply insert_by_rank_sorted].
Qed.

Lemma sort_by_rank_keys l :
  StronglySorted Z.le (rank_key a <$> sort_by_rank a l).
Proof.
  pose proof (sort_by_rank_sorted l) as H.
  induction H as [|y l' Hs IH Hall]; simpl; constructor; [done|].
  apply Forall_fmap. eapply Forall_impl; [exact Hall|]. done.
Qed.

(** The sorted keys depend on the multiset of results only. *)
Lemma sort_by_rank_keys_perm l l' :
  l ≡ₚ l' -> rank_key a <$> sort_by_rank a l = rank_key a <$> sort_by_rank a l'.
Proof.
  intros Hp. apply (StronglySorted_unique Z.le).
  - apply sort_by_rank_keys.
  - apply sort_by_rank_keys.
  - by rewrite !sort_by_rank_perm, Hp.
Qed.

(** With pairwise distinct keys, so does the sorted list itself. *)
Lemma sort_by_rank_unique l l' :
  NoDup (rank_key a <$> l) -> l ≡ₚ l' -> sort_by_rank a l = sort_by_rank a l'.
Proof.
  intros Hnd Hp.
  assert (forall k, k ≡ₚ l ->
    StronglySorted (fun x y => rank_key a x < rank_key a y)%Z (sort_by_rank a k)) as Hstrict.
  { intros k Hk.
    assert (NoDup (rank_key a <$> sort_by_rank a k)) as Hnd'
      by (by rewrite sort_by_rank_perm, Hk).
    pose proof (sort_by_rank_sorted k) as H.
    induction H as [|y l0 Hs IH Hall]; simpl in *; constructor.
    - apply IH. by apply NoDup_cons_1_2 in Hnd'.
    - apply NoDup_cons in Hnd' as [Hnotin _].
      rewrite Forall_forall in *. intros x Hx.
      pose proof (Hall x Hx) as Hle. unfold rank_le in Hle.
      destruct (decide (rank_key a y = rank_key a x)) as [E|E]; [|lia].
      destruct Hnotin. rewrite E. apply list_elem_of_fmap. eauto. }
  eapply (StronglySorted_unique (fun x y => rank_key a x < rank_key a y)%Z).
  - by apply Hstrict.
  - by apply Hstrict.
  - by rewrite !sort_by_rank_perm.
  Unshelve. intros x y H1 H2. lia.
Qed.
End Sorting.

(** ** The loop of [main_async] *)

Section Loop.
Context (a : args).
Local Abbreviation K := (Z.to_nat (bottom_k a)) (only parsing).

Lemma selector_inv_init : selector_inv a [] ([], 0%Z).
Proof.
  exists []. simpl. split_and!.
  - split_and!; by constructor.
  - by rewrite take_nil.
  - intros i x y _ Hx. by rewrite lookup_nil in Hx.
Qed.

Lemma step_skipped st res :
  skipped a res = true -> main_async_step a st res = ret st.
Proof. destruct st. unfold main_async_step. by intros ->. Qed.

Lemma split_last_of_length {A} (l : list A) n :
  length l = S n -> exists z, l = take n l ++ [z].
Proof.
  intros Hlen.
  assert (length (drop n l) = 1) as H1 by (rewrite length_drop; lia).
  destruct (drop n l) as [|z [|??]] eqn:E; simplify_eq/=.
  exists z. by rewrite <- E, take_drop.
Qed.

Lemma sorted_items_step adm seq sorted res :
  sorted_items a adm seq sorted ->
  sorted_items a (adm ++ [res]) (seq + 1)
    (insert_item (- rank_key a res, seq, res)%Z sorted).
Proof.
  intros (Hs & Hnd & Hall & Hmap). split_and!.
  - by apply insert_item_sorted.
  - rewrite insert_item_perm. constructor; [|done].
    intros (x & Hx & Hin)%list_elem_of_fmap.
    rewrite Forall_forall in Hall. apply Hall in Hin.
    unfold item_tag in *. simpl in *. lia.
  - rewrite insert_item_perm. constructor.
    + unfold item_tag. simpl. split; [lia|done].
    + eapply Forall_impl; [exact Hall|]. simpl. intros x [??]. split; [lia|done].
  - rewrite rev_unit. simpl. rewrite <- Hmap.
    by apply insert_item_results.
Qed.

Lemma step_admitted adm heap seq res :
  selector_inv a adm (heap, seq) -> skipped a res = false ->
  exists heap', main_async_step a (heap, seq) res = ret (heap', (seq + 1)%Z)
                /\ selector_inv a (adm ++ [res]) (heap', (seq + 1)%Z).
Proof.
  intros (sorted & Hsorted & Hperm & Hok) Hadm. simpl in *.
  pose proof (sorted_items_step adm seq sorted res Hsorted) as Hsorted'.
  set (e := (- rank_key a res, seq, res)%Z : item) in *.
  destruct Hsorted as (Hs & Hnd & Hall & Hmap).
  set (T := take K sorted) in *.
  assert (NoDup (item_tag <$> e :: T)) as HndT.
  { destruct Hsorted' as (_ & Hnd' & _). rewrite insert_item_perm in Hnd'.
    rewrite <- (take_drop K sorted) in Hnd'. fold T in Hnd'.
    rewrite fmap_cons, fmap_app, app_comm_cons in Hnd'.
    by apply NoDup_app in Hnd' as [? _]. }
  assert (StronglySorted (flip item_le) T) as HsT.
  { rewrite <- (take_drop K sorted) in Hs. by apply StronglySorted_app_1_l in Hs. }
  destruct (heappush_correct item_lt item_le item_tag
              item_le_trans item_lt_le heap e)
    as (heap1 & Hrun1 & Hok1 & Hp1); [done|by rewrite Hperm|].
  unfold main_async_step. rewrite Hadm. fold e. rewrite Hrun1. simpl.
  assert (heap1 ≡ₚ insert_item e T) as HpL
    by (by rewrite Hp1, Hperm, insert_item_perm).
  assert (length heap1 = S (length T)) as Hlen1
    by (by rewrite HpL, insert_item_length).
  assert (length T <= K) as HlenT by (subst T; rewrite length_take; lia).
  destruct (Z.ltb_spec (bottom_k a) (Z.of_nat (length heap1))) as [Hfull|Hroom].
  - (* the heap is over K: its smallest item goes *)
    assert (length T = K) as HlenK by lia.
    destruct (heappop_correct item_lt item_le item_tag
                item_le_refl item_le_trans item_lt_le heap1)
      as (m & heap2 & Hrun2 & Hok2 & Hp2 & Hmin);
      [done|by rewrite Hp1, Hperm|by destruct heap1|].
    rewrite Hrun2. simpl. exists heap2. split; [done|].
    exists (insert_item e sorted). simpl. split_and!; [done| |done].
    rewrite (take_insert_item K e sorted). fold T.
    destruct (split_last_of_length (insert_item e T) K) as [z Hz];
      [rewrite insert_item_length; lia|].
    assert (m = z) as ->.
    { apply (NoDup_fmap_elem_inj item_tag (insert_item e T)).
      - by rewrite insert_item_perm.
      - rewrite <- HpL, Hp2. set_solver.
      - rewrite Hz. set_solver.
      - apply item_le_antisym.
        + apply Hmin. rewrite HpL, Hz. set_solver.
        + apply (sorted_last_least (take K (insert_item e T))).
          * rewrite <- Hz. by apply insert_item_sorted.
          * rewrite <- Hz, <- HpL, Hp2. set_solver. }
    apply (Permutation_cons_inv (a := z)).
    rewrite <- Hp2, HpL. rewrite Hz at 1. by rewrite <- Permutation_cons_append.
  - (* there is room *)
    exists heap1. split; [done|].
    exists (insert_item e sorted). simpl. split_and!; [done| |done].
    rewrite (take_insert_item K e sorted). fold T.
    rewrite take_ge; [done|]. rewrite insert_item_length. lia.
Qed.

Lemma loop_correct results : forall adm st,
  selector_inv a adm st ->
  exists st', main_async_loop a st results = ret st'
              /\ selector_inv a (adm ++ admitted a results) st'.
Proof.
  induction results as [|res results IH]; intros adm [heap seq] Hinv;
    cbn [main_async_loop].
  - exists (heap, seq). by rewrite app_nil_r.
  - unfold admitted. rewrite filter_cons.
    destruct (skipped a res) eqn:Hsk; cbn [negb].
    + rewrite step_skipped by done. by apply IH.
    + destruct (step_admitted adm heap seq res Hinv Hsk) as (heap' & -> & Hinv').
      destruct (IH _ _ Hinv') as (st' & Hrun & Hinv'').
      exists st'. split; [done|]. by rewrite <- app_assoc in Hinv''.
Qed.

Lemma loop_app st results1 results2 :
  main_async_loop a st (results1 ++ results2)
  = do st' <- main_async_loop a st results1; main_async_loop a st' results2.
Proof.
  revert st. induction results1 as [|res results1 IH]; intros st; simpl; [done|].
  destruct (main_async_step a st res); simpl; [done|]. apply IH.
Qed.

Lemma selector_inv_length adm st :
  selector_inv a adm st -> length st.1 = K `min` length adm.
Proof.
  intros (sorted & (_ & _ & _ & Hmap) & Hp & _).
  rewrite Hp, length_take. f_equal.
  transitivity (length sorted.*2); [by rewrite length_fmap|].
  rewrite Hmap, sort_by_rank_perm. apply length_rev.
Qed.

Lemma selector_inv_results adm st :
  selector_inv a adm st ->
  st.1.*2 ≡ₚ take K (sort_by_rank a (rev adm)).
Proof.
  intros (sorted & (_ & _ & _ & Hmap) & Hp & _).
  by rewrite Hp, <- Hmap, fmap_take.
Qed.
End Loop.

(** Inside one round the push comes before the trim: the list is one
    longer for a moment. *)
Lemma push_before_trim (a : args) adm heap seq res :
  selector_inv a adm (heap, seq) ->
  exists heap1, heappush item_lt heap (- rank_key a res, seq, res)%Z = ret heap1
                /\ length heap1 = S (length heap).
Proof.
  intros (sorted & (Hs & Hnd & Hall & Hmap) & Hperm & Hok). simpl in *.
  destruct (heappush_correct item_lt item_le item_tag item_le_trans item_lt_le
              heap (- rank_key a res, seq, res)%Z)
    as (heap1 & Hrun1 & _ & Hp1); [done| |].
  - rewrite Hperm. simpl. constructor.
    + intros (x & Hx & Hin%subseteq_take)%list_elem_of_fmap.
      rewrite Forall_forall in Hall. apply Hall in Hin.
      unfold item_tag in *. simpl in *. lia.
    + rewrite <- (take_drop (Z.to_nat (bottom_k a)) sorted), fmap_app in Hnd.
      by apply NoDup_app in Hnd as [? _].
  - exists heap1. split; [done|]. by rewrite Hp1.
Qed.

(** The trim evicts an item whose rank key is the largest of the heap. *)
Lemma trim_evicts_largest (a : args) adm heap seq res heap1 m heap2 :
  selector_inv a adm (heap, seq) ->
  heappush item_lt heap (- rank_key a res, seq, res)%Z = ret heap1 ->
  heappop item_lt heap1 = ret (m, heap2) ->
  forall x, x ∈ heap2 -> (rank_key a x.2 <= rank_key a m.2)%Z.
Proof.
  intros (sorted & (Hs & Hnd & Hall & Hmap) & Hperm & Hok) Hpush Hpop. simpl in *.
  set (e := (- rank_key a res, seq, res)%Z : item) in *.
  assert (Forall (fun x : item => (item_tag x < seq)%Z
                                  /\ x.1.1 = (- rank_key a x.2)%Z) heap) as Hheap.
  { rewrite Hperm. rewrite Forall_forall in *.
    intros x Hx%subseteq_take. by apply Hall. }
  assert (NoDup (item_tag <$> e :: heap)) as Hnd'.
  { simpl. constructor.
    - intros (x & Hx & Hin)%list_elem_of_fmap.
      rewrite Forall_forall in Hheap. apply Hheap in Hin.
      unfold item_tag in *. simpl in *. lia.
    - rewrite Hperm.
      rewrite <- (take_drop (Z.to_nat (bottom_k a)) sorted), fmap_app in Hnd.
      by apply NoDup_app in Hnd as [? _]. }
  destruct (heappush_correct item_lt item_le item_tag item_le_trans item_lt_le
              heap e Hok Hnd') as (h1 & Hrun1 & Hok1 & Hp1).
  assert (h1 = heap1) as -> by (unfold ret in *; congruence).
  destruct (heappop_correct item_lt item_le item_tag
              item_le_refl item_le_trans item_lt_le heap1)
    as (m' & h2 & Hrun2 & _ & Hp2 & Hmin);
    [done|by rewrite Hp1|intros ->; by apply Permutation_nil_cons in Hp1|].
  assert (m' = m /\ h2 = heap2) as [-> ->]
    by (unfold ret in *; split; congruence).
  assert (Forall (fun x : item => x.1.1 = (- rank_key a x.2)%Z) heap1) as Hkeys.
  { rewrite Hp1. constructor; [done|].
    eapply Forall_impl; [exact Hheap|]. by intros x [_ ?]. }
  rewrite Forall_forall in Hkeys.
  intros x Hx.
  assert (x ∈ heap1) as Hx1 by (rewrite Hp2; by right).
  assert (m ∈ heap1) as Hm1 by (rewrite Hp2; by left).
  specialize (Hmin x Hx1). unfold item_le in Hmin.
  rewrite (Hkeys x Hx1), (Hkeys m Hm1) in Hmin. lia.
Qed.

(* ===================================================================== *)
(** * The bottom-K selector *)
(* ===================================================================== *)

Lemma bottom_spec (a : args) (results : list Result) :
  exists b, bottom a results = ret b /\ b ≡ₚ brute_force_bottom a results.
Proof.
  destruct (loop_correct a results [] ([], 0%Z) (selector_inv_init a))
    as (st & Hrun & Hinv).
  exists st.1.*2. unfold bottom, final_heap. rewrite Hrun. split; [done|].
  by apply selector_inv_results in Hinv.
Qed.

Lemma admitted_perm a results results' :
  results ≡ₚ results' -> admitted a results ≡ₚ admitted a results'.
Proof. intros H. unfold admitted. by rewrite H. Qed.

Lemma step_admit a st res :
  skipped a res = false ->
  main_async_step a st res = admit_with a (rank_key a res) st res.
Proof.
  destruct st as [heap seq]. unfold main_async_step, admit_with. by intros ->.
Qed.

(** C1.  With K >= 0, after every prefix of the stream of results the
    heap holds at most K items (the loop runs on without raising), and
    at the end of the stream it holds min(K, N) items, N being the number
    of results admitted. *)
Theorem heap_size_bounded (a : args) (results : list Result) :
  (0 <= bottom_k a)%Z ->
  (forall seen rest, results = seen ++ rest ->
     exists st, main_async_loop a ([], 0%Z) seen = ret st
       /\ (Z.of_nat (length st.1) <= bottom_k a)%Z
       /\ main_async_loop a ([], 0%Z) results = main_async_loop a st rest)
  /\ exists heap, final_heap a results = ret heap
       /\ Z.of_nat (length heap)
          = Z.min (bottom_k a) (Z.of_nat (length (admitted a results))).
Proof.
  intros HK. split.
  - intros seen rest ->.
    destruct (loop_correct a seen [] ([], 0%Z) (selector_inv_init a))
      as (st & Hrun & Hinv).
    exists st. split; [done|]. split.
    + rewrite (selector_inv_length a _ _ Hinv). lia.
    + by rewrite loop_app, Hrun.
  - destruct (loop_correct a results [] ([], 0%Z) (selector_inv_init a))
      as (st & Hrun & Hinv).
    exists st.1. unfold final_heap. rewrite Hrun. split; [done|].
    rewrite (selector_inv_length a _ _ Hinv). simpl. lia.
Qed.

Lemma heap_size_bounded_witness :
  exists heap, final_heap (run 3 false false) five = ret heap
               /\ Z.of_nat (length heap) = 3%Z.
Proof.
  destruct (heap_size_bounded (run 3 false false) five) as [_ (heap & H1 & H2)].
  - simpl. lia.
  - exists heap. split; [exact H1|]. rewrite H2. reflexivity.
Defined.

(** C2, as stated, fails: two results with the same rank key and K = 1;
    the one that completes last is retained, so the retained set depends
    on the admission order. *)
Lemma bottom_depends_on_order : ~ bottom_order_independent.
Proof.
  intros H.
  specialize (H (run 1 false false)
                [fetched "a" 5; fetched "b" 5] [fetched "b" 5; fetched "a" 5]
                [fetched "b" 5] [fetched "a" 5]
                (perm_swap _ _ _) eq_refl eq_refl).
  apply Permutation_singleton_l in H. discriminate H.
Qed.

(** C2, amended.  For every stream of results the loop ends without
    raising and retains exactly the first K of the admitted results
    sorted ascending by rank key, the later admitted first among equal
    keys.  For every other admission order of the same results the retained
    rank keys are the same multiset, and when the rank keys of the admitted
    results are pairwise distinct so is the retained set. *)
Theorem bottom_k_smallest (a : args) (results : list Result) :
  exists b, bottom a results = ret b
    /\ b ≡ₚ brute_force_bottom a results
    /\ forall results' b',
         results' ≡ₚ results -> bottom a results' = ret b' ->
         rank_key a <$> b' ≡ₚ rank_key a <$> b
         /\ (NoDup (rank_key a <$> admitted a results) -> b' ≡ₚ b).
Proof.
  destruct (bottom_spec a results) as (b & Hb & Hp).
  exists b. split; [done|]. split; [done|].
  intros results' b' Hperm Hb'.
  destruct (bottom_spec a results') as (b'' & Hb'' & Hp').
  assert (b'' = b') as -> by (unfold ret in *; congruence).
  assert (rev (admitted a results') ≡ₚ rev (admitted a results)) as Hrev.
  { rewrite <- !Permutation_rev. by apply admitted_perm. }
  split.
  - rewrite Hp, Hp'. unfold brute_force_bottom. rewrite !fmap_take.
    by rewrite (sort_by_rank_keys_perm a _ _ Hrev).
  - intros Hnd. rewrite Hp, Hp'. unfold brute_force_bottom.
    rewrite (sort_by_rank_unique a (rev (admitted a results'))
               (rev (admitted a results))).
    + done.
    + by rewrite Hrev, <- Permutation_rev.
    + done.
Qed.

Lemma bottom_k_smallest_witness :
  exists b, bottom (run 3 false true) five = ret b
    /\ b ≡ₚ [failed "b"; fetched "e" 5; fetched "d" 5].
Proof.
  destruct (bottom_k_smallest (run 3 false true) five) as (b & Hb & Hp & _).
  exists b. split; [exact Hb|]. rewrite Hp. reflexivity.
Defined.

(** ** Rank keys *)

Lemma int_digits_nonneg s acc : (0 <= acc)%Z -> (0 <= int_digits acc s)%Z.
Proof.
  revert acc. induction s as [|c s IH]; intros acc Hacc; simpl; [done|].
  apply IH. unfold digit_val. lia.
Qed.

Lemma extract_deck_count_nonneg html d :
  extract_deck_count html = ret (Some d) -> (0 <= d)%Z.
Proof.
  unfold extract_deck_count, int_of_digits.
  destruct (DECKS_RE_search html) as [g|]; [|discriminate].
  case_decide; [|discriminate]. simpl. intros [= <-].
  by apply int_digits_nonneg.
Qed.

(** C3.  A result without a metric is always admitted, under the rank
    key 10^12 when errored items are excluded from display and under the
    rank key 0 when they are included.  After every stream of results the
    heap holds min(K, N) of the N admitted results, the others having been
    evicted.  With errored items excluded, as long as the result is in the
    heap no result with a metric below 10^12 has been evicted: the evicted
    ones lack a metric too, or have one of at least 10^12.  With errored
    items included, the result is evicted only from a full heap whose K
    results all have a rank key of at most 0, which is at most the rank key
    of every result a fetch can yield: a result with a metric in its place
    would have been evicted as well. *)
Theorem absent_metric_rank_key (a : args) (seen : list Result) (res : Result) :
  decks res = None -> res ∈ seen ->
  (forall st, main_async_step a st res
              = admit_with a (if include_errors a then 0 else 10 ^ 12)%Z st res)
  /\ exists b evicted,
       bottom a seen = ret b
       /\ admitted a seen ≡ₚ b ++ evicted
       /\ length b = Z.to_nat (bottom_k a) `min` length (admitted a seen)
       /\ res ∈ b ++ evicted
       /\ (include_errors a = false ->
           rank_key a res = (10 ^ 12)%Z
           /\ (res ∈ b ->
               forall y, y ∈ evicted ->
                 decks y = None \/ exists d, decks y = Some d /\ (10 ^ 12 <= d)%Z))
       /\ (include_errors a = true ->
           rank_key a res = 0%Z
           /\ (res ∈ evicted ->
               length b = Z.to_nat (bottom_k a)
               /\ forall x, x ∈ b ->
                    (rank_key a x <= 0)%Z
                    /\ forall res' html,
                         extract_deck_count html = ret (decks res') ->
                         (rank_key a x <= rank_key a res')%Z)).
Proof.
  intros Hnone Hseen.
  assert (skipped a res = false) as Hadm
    by (unfold skipped; rewrite Hnone; apply andb_false_r).
  split.
  { intros st. rewrite step_admit by done.
    unfold rank_key. rewrite Hnone. by destruct (include_errors a). }
  destruct (bottom_spec a seen) as (b & Hb & Hp).
  unfold brute_force_bottom in Hp.
  set (sorted := sort_by_rank a (rev (admitted a seen))) in *.
  set (k := Z.to_nat (bottom_k a)) in *.
  assert (sorted ≡ₚ admitted a seen) as Hsorted
    by (unfold sorted; by rewrite sort_by_rank_perm, <- Permutation_rev).
  assert (forall x y, x ∈ b -> y ∈ drop k sorted ->
                      (rank_key a x <= rank_key a y)%Z) as Hle.
  { intros x y Hx Hy. rewrite Hp in Hx.
    pose proof (sort_by_rank_sorted a (rev (admitted a seen))) as Hs.
    fold sorted in Hs. rewrite <- (take_drop k sorted) in Hs.
    by apply (StronglySorted_app_1_elem_of _ _ _ x y Hs). }
  exists b, (drop k sorted). split_and!.
  - done.
  - by rewrite Hp, take_drop.
  - by rewrite Hp, length_take, Hsorted.
  - rewrite Hp, take_drop, Hsorted. unfold admitted.
    apply list_elem_of_filter. by rewrite Hadm.
  - intros Hex.
    assert (rank_key a res = (10 ^ 12)%Z) as Hkey
      by (unfold rank_key; by rewrite Hnone, Hex).
    split; [done|]. intros Hin y Hy.
    pose proof (Hle res y Hin Hy) as H. rewrite Hkey in H.
    unfold rank_key in H. destruct (decks y) as [d|]; [right|by left].
    by exists d.
  - intros Hinc.
    assert (rank_key a res = 0%Z) as Hkey
      by (unfold rank_key; by rewrite Hnone, Hinc).
    split; [done|]. intros Hout. split.
    + rewrite Hp, length_take.
      apply list_elem_of_lookup in Hout as [i Hi].
      apply lookup_lt_Some in Hi. rewrite length_drop in Hi. lia.
    + intros x Hx. pose proof (Hle x res Hx Hout) as H. rewrite Hkey in H.
      split; [done|]. intros res' html Hfetch.
      unfold rank_key at 2. rewrite Hinc. simpl.
      destruct (decks res') as [d|]; [|done].
      apply extract_deck_count_nonneg in Hfetch. lia.
Qed.

Lemma absent_metric_rank_key_witness :
  exists b evicted,
    bottom (run 3 false false) five = ret b
    /\ admitted (run 3 false false) five ≡ₚ b ++ evicted
    /\ length b = 3
    /\ failed "b" ∈ b ++ evicted
    /\ rank_key (run 3 false false) (failed "b") = (10 ^ 12)%Z.
Proof.
  destruct (absent_metric_rank_key (run 3 false false) five (failed "b"))
    as (_ & b & evicted & H1 & H2 & H3 & H4 & H5 & _).
  - reflexivity.
  - apply list_elem_of_further, list_elem_of_here.
  - exists b, evicted.
    split_and!; [exact H1|exact H2|exact H3|exact H4|by apply H5].
Defined.

(** C5.  With the only-positive switch on, a result whose metric is a
    number at most 0 leaves the heap and the sequence number as they
    were, no item of the heap ever carries such a metric, and a result
    without a metric is admitted under its sentinel rank key as it is with
    the switch off. *)
Theorem only_positive_skips (a : args) :
  only_positive a = true ->
  (forall st res d, decks res = Some d -> (d <= 0)%Z ->
                    main_async_step a st res = ret st)
  /\ (forall results heap, final_heap a results = ret heap ->
        forall x d, x ∈ heap -> decks x.2 = Some d -> (0 < d)%Z)
  /\ (forall st res, decks res = None ->
        main_async_step a st res = admit_with a (rank_key a res) st res).
Proof.
  intros Hpos. split_and!.
  - intros st res d Hd Hle. apply step_skipped.
    unfold skipped. rewrite Hpos, Hd. simpl. by apply Z.leb_le.
  - intros results heap Hrun x d Hx Hd.
    destruct (loop_correct a results [] ([], 0%Z) (selector_inv_init a))
      as (st & Hloop & Hinv).
    unfold final_heap in Hrun. rewrite Hloop in Hrun. injection Hrun as <-.
    apply selector_inv_results in Hinv. simpl in Hinv.
    assert (x.2 ∈ admitted a results) as Hin.
    { rewrite (Permutation_rev (admitted a results)).
      rewrite <- (sort_by_rank_perm a (rev (admitted a results))).
      eapply subseteq_take. rewrite <- Hinv. by apply list_elem_of_fmap_2. }
    unfold admitted in Hin. apply list_elem_of_filter in Hin as [Hsk _].
    unfold skipped in Hsk. rewrite Hpos, Hd in Hsk. simpl in Hsk.
    destruct (Z.leb_spec d 0); [done|lia].
  - intros st res Hnone. apply step_admit.
    unfold skipped. rewrite Hnone. apply andb_false_r.
Qed.

Lemma only_positive_skips_witness :
  main_async_step (run 3 true false) ([], 0%Z) (fetched "z" 0) = ret ([], 0%Z).
Proof.
  apply (only_positive_skips (run 3 true false) eq_refl) with (d := 0%Z).
  - reflexivity.
  - lia.
Defined.

(* ===================================================================== *)
(** * The two pools *)
(* ===================================================================== *)

(** C4, as stated, fails: no command line gives 8 slots to the metric
    fetches and 3 to the strict checks. *)
Lemma pools_not_independent : ~ pools_independent.
Proof.
  intros H. destruct (H 3%Z 8%Z) as (a & Hv & Hm); [lia|lia|].
  unfold metric_pool, fetch_semaphore, Semaphore in Hm.
  unfold verification_pool, strict_semaphore, Semaphore in Hv. simpl in Hv.
  destruct (Z.ltb_spec (args_concurrency a) 0); [discriminate Hm|].
  injection Hm as Hm. rewrite Hm in Hv. discriminate Hv.
Qed.

(** C4, amended.  The strict checks and the metric fetches are gated by
    two semaphores, both sized from the one concurrency setting: the
    metric pool has that many slots and the verification pool has
    max(2, concurrency // 2). *)
Theorem verification_pool_derived (a : args) (m : Z) :
  metric_pool a = ret m ->
  args_concurrency a = m
  /\ verification_pool a = ret (Z.max 2 (m / 2)).
Proof.
  unfold metric_pool, fetch_semaphore, Semaphore.
  destruct (Z.ltb_spec (args_concurrency a) 0); [discriminate|].
  intros [= <-]. split; [done|].
  unfold verification_pool, strict_semaphore, Semaphore. simpl.
  destruct (Z.ltb_spec (Z.max 2 (Z.max 2 (args_concurrency a / 2))) 0); [lia|].
  f_equal. lia.
Qed.

Lemma verification_pool_derived_witness :
  verification_pool (run 3 false false) = ret 4%Z.
Proof.
  apply (verification_pool_derived (run 3 false false) 8%Z). reflexivity.
Defined.

(* ===================================================================== *)
(** * The metric fetch *)
(* ===================================================================== *)

(** C6.  A fetch always returns a result.  When the request or the
    reading of the body raises, the result carries the commander's name,
    its route address, no metric and the text of the exception.  When the
    pattern finds no match in the body, the result carries no metric and no
    error. *)
Theorem fetch_deck_count_isolates (cmdr : Commander) :
  (forall answer, exists res, fetch_deck_count answer cmdr = ret res)
  /\ (forall e,
        fetch_deck_count (GetRaises e) cmdr
        = ret (mkResult (cmdr_name cmdr) (edhrec_route_url cmdr) None
                 (Some (exn_str e))))
  /\ (forall final_url e,
        fetch_deck_count (Response final_url (raise e)) cmdr
        = ret (mkResult (cmdr_name cmdr) (edhrec_route_url cmdr) None
                 (Some (exn_str e))))
  /\ (forall final_url html,
        DECKS_RE_search html = None ->
        fetch_deck_count (Response final_url (ret html)) cmdr
        = ret (mkResult (cmdr_name cmdr) final_url None None)).
Proof.
  split_and!.
  - intros answer. unfold fetch_deck_count, try_except.
    destruct (match answer with GetRaises e => _ | Response _ _ => _ end); eauto.
  - done.
  - done.
  - intros final_url html Hnone. unfold fetch_deck_count, extract_deck_count.
    simpl. by rewrite Hnone.
Qed.

Lemma fetch_deck_count_isolates_witness :
  fetch_deck_count (Response "https://edhrec.com/commanders/x" (ret "<p>no data</p>"))
    (mkCommander "X" "https://edhrec.com/route/?cc=X")
  = ret (mkResult "X" "https://edhrec.com/commanders/x" None None).
Proof.
  apply (fetch_deck_count_isolates (mkCommander "X" "https://edhrec.com/route/?cc=X")).
  reflexivity.
Defined.

(* ===================================================================== *)
(** * The strict check *)
(* ===================================================================== *)

Lemma scan_fails_raises answer e : scan_fails answer e <-> ptk_scan answer = raise e.
Proof.
  split.
  - induction 1 as [e|data next_page answer e Hd Hn _ IH]; cbn [ptk_scan]; [done|].
    by rewrite Hd, Hn.
  - induction answer as [e'|data|data next_page answer IH]; cbn [ptk_scan].
    + intros [= ->]. constructor.
    + discriminate.
    + destruct (has_ptk_printing data) eqn:Hd; [discriminate|].
      destruct (truthy (Some next_page)) eqn:Hn; [|discriminate].
      intros H. constructor; auto.
Qed.

Lemma is_ptk_strict_returns answer c :
  is_ptk_strict answer c = ret (strict_verdict answer c).
Proof.
  unfold strict_verdict, is_ptk_strict, try_except.
  destruct (negb (truthy (c !! "prints_search_uri"))); [done|].
  by destruct (ptk_scan answer).
Qed.

Lemma gather_checks (prints : card -> printings) (l : list card) :
  gather (map (fun c => check (prints c) c) l)
  = ret (filter (fun c => negb (strict_verdict (prints c) c)) l).
Proof.
  induction l as [|c l IH]; simpl; [done|].
  unfold check at 1. rewrite is_ptk_strict_returns. simpl. rewrite IH. simpl.
  rewrite filter_cons. by destruct (strict_verdict (prints c) c).
Qed.

(** C7.  The strict check of a card always returns a verdict.  When a
    request of its scan fails, the verdict is the one of the fast
    heuristic.  So in strict mode the filter pipeline does not raise once
    the first pass is done: it keeps, in completion order, the cards whose
    own check says they are not PTK, whatever happens to the checks of the
    other cards. *)
Theorem strict_check_falls_back (answer : printings) (c : card) :
  (exists ptk, is_ptk_strict answer c = ret ptk)
  /\ (forall e, scan_fails answer e ->
                is_ptk_strict answer c = ret (looks_like_ptk_fast c))
  /\ (forall today_utc prints as_completed pool o prelim,
        first_pass o today_utc pool = ret prelim ->
        exclude_ptk o = true -> ptk_strict o = true ->
        apply_filters_async today_utc prints as_completed pool o
        = ret (filter (fun c' => negb (strict_verdict (prints c') c'))
                 (as_completed prelim))).
Proof.
  split_and!.
  - eexists. apply is_ptk_strict_returns.
  - intros e He%scan_fails_raises. unfold is_ptk_strict.
    destruct (negb (truthy (c !! "prints_search_uri"))); [done|].
    by rewrite He.
  - intros today_utc prints as_completed pool o prelim Hfirst Hptk Hstrict.
    unfold apply_filters_async. rewrite Hfirst, Hptk, Hstrict. simpl.
    unfold strict_semaphore, Semaphore.
    destruct (Z.ltb_spec (Z.max 2 (concurrency o)) 0); [lia|]. simpl.
    apply gather_checks.
Qed.

Lemma strict_check_falls_back_witness :
  is_ptk_strict
    (Page [Some "m3c"] "https://api.scryfall.com/p2" (PageFails timeout)) sun_quan
  = ret true.
Proof.
  apply (strict_check_falls_back
           (Page [Some "m3c"] "https://api.scryfall.com/p2" (PageFails timeout))
           sun_quan) with (e := timeout).
  apply scan_fails_later; [reflexivity|reflexivity|apply scan_fails_here].
Defined.

(* ===================================================================== *)
(** * Deduplication *)
(* ===================================================================== *)

Section Collapse.
Implicit Types (c : card) (cards : list card)
  (acc : list (option string * card)).

Lemma first_with_key_cons c0 cards c :
  first_with_key (c0 :: cards) c
  <-> (c = c0 /\ is_commander_face c0 = true)
      \/ (first_with_key cards c
          /\ (is_commander_face c0 = true -> commander_key c0 ≠ commander_key c)).
Proof.
  split.
  - intros (before & after & Heq & Hface & Hfirst).
    destruct before as [|c1 before]; simplify_eq/=.
    + by left.
    + right. split.
      * exists before, after. split_and!; [done|done|].
        intros c' Hin. apply Hfirst. by right.
      * apply Hfirst. by left.
  - intros [[-> Hface]|[(before & after & -> & Hface & Hfirst) Hne]].
    + exists [], cards. split_and!; [done|done|]. intros c' Hin. inversion Hin.
    + exists (c0 :: before), after. split_and!; [done|done|].
      intros c' [->|Hin]%elem_of_cons; auto.
Qed.

Lemma first_with_key_nil c : ~ first_with_key [] c.
Proof. intros (before & after & Heq & _). by destruct before. Qed.

Lemma collapse_loop_spec cards : forall acc,
  NoDup acc.*1 ->
  exists rest,
    collapse_loop acc cards = acc ++ rest
    /\ NoDup (acc ++ rest).*1
    /\ rest.*1 = commander_key <$> rest.*2
    /\ forall c, c ∈ rest.*2
                 <-> (commander_key c ∉ acc.*1) /\ first_with_key cards c.
Proof.
  induction cards as [|c0 cards IH]; intros acc Hnd; simpl.
  - exists []. rewrite app_nil_r. split_and!; [done|done|done|].
    intros c. split; [by intros ?%elem_of_nil|].
    intros [_ H]. by apply first_with_key_nil in H.
  - destruct (is_commander_face c0) eqn:Hface; simpl.
    + unfold dict_has. case_bool_decide as Hin.
      * destruct (IH acc Hnd) as (rest & Hrun & Hnd' & Hkeys & Hmem).
        exists rest. split_and!; [done|done|done|].
        intros c. rewrite Hmem, first_with_key_cons. split.
        -- intros [Hc Hf]. split; [done|]. right. split; [done|].
           intros _ E. apply Hc. by rewrite <- E.
        -- intros [Hc [[-> _]|[Hf _]]]; [done|]. done.
      * destruct (IH (acc ++ [(commander_key c0, c0)]))
          as (rest & Hrun & Hnd' & Hkeys & Hmem).
        { rewrite fmap_app. simpl. apply NoDup_app. split_and!; [done| |].
          - intros k Hk ->%list_elem_of_singleton. done.
          - apply NoDup_singleton. }
        exists ((commander_key c0, c0) :: rest).
        rewrite <- app_assoc in Hrun, Hnd'. simpl in *.
        split_and!; [done|done|by f_equal|].
        intros c. rewrite elem_of_cons, Hmem, first_with_key_cons.
        rewrite fmap_app, elem_of_app. simpl. rewrite list_elem_of_singleton.
        split.
        -- intros [->|[Hc Hf]]; [by split; [|left]|].
           split; [tauto|]. right. split; [done|]. intros _ E. apply Hc. by right.
        -- intros [Hc [[-> _]|[Hf Hne]]]; [by left|].
           right. split; [|done]. intros [?|E]; [done|]. by apply Hne.
    + destruct (IH acc Hnd) as (rest & Hrun & Hnd' & Hkeys & Hmem).
      exists rest. split_and!; [done|done|done|].
      intros c. rewrite Hmem, first_with_key_cons. split.
      * intros [Hc Hf]. split; [done|]. right. split; [done|]. congruence.
      * intros [Hc [[-> ?]|[Hf _]]]; [congruence|done].
Qed.

Lemma first_with_key_exists cards c :
  c ∈ cards -> is_commander_face c = true ->
  exists c1, first_with_key cards c1 /\ commander_key c1 = commander_key c.
Proof.
  induction cards as [|c0 cards IH]; intros Hin Hface;
    [by apply elem_of_nil in Hin|].
  destruct (decide (is_commander_face c0 = true
                    /\ commander_key c0 = commander_key c)) as [[Hf Hk]|Hno].
  - exists c0. split; [|done]. apply first_with_key_cons. by left.
  - apply elem_of_cons in Hin as [->|Hin]; [tauto|].
    destruct (IH Hin Hface) as (c1 & Hfirst & Hk).
    exists c1. split; [|done]. apply first_with_key_cons. right. split; [done|].
    intros Hf E. apply Hno. split; [done|]. congruence.
Qed.
End Collapse.

(** C8.  The pool holds no two cards with the same canonical key; a card
    is in the pool exactly when it is the first commander face of the
    input with its key; every key of a commander face of the input is the
    key of a card of the pool; and no card that fails the shape check is in
    the pool. *)
Theorem collapse_keeps_first (cards : list card) :
  NoDup (commander_key <$> collapse_by_oracle cards)
  /\ (forall c, c ∈ collapse_by_oracle cards <-> first_with_key cards c)
  /\ (forall c, c ∈ cards -> is_commander_face c = true ->
        commander_key c ∈ commander_key <$> collapse_by_oracle cards)
  /\ (forall c, c ∈ collapse_by_oracle cards -> is_commander_face c = true).
Proof.
  unfold collapse_by_oracle.
  destruct (collapse_loop_spec cards []) as (rest & Hrun & Hnd & Hkeys & Hmem);
    [constructor|]. rewrite Hrun. simpl in *.
  assert (forall c, c ∈ rest.*2 <-> first_with_key cards c) as Hmem'.
  { intros c. rewrite Hmem. split; [tauto|]. split; [apply not_elem_of_nil|done]. }
  split_and!.
  - by rewrite <- Hkeys.
  - done.
  - intros c Hin Hface.
    destruct (first_with_key_exists cards c Hin Hface) as (c1 & Hfirst & <-).
    apply list_elem_of_fmap_2. by apply Hmem'.
  - intros c (before & after & _ & Hface & _)%Hmem'. done.
Qed.

Lemma collapse_keeps_first_witness :
  commander_key atraxa_promo
  ∈ commander_key <$> collapse_by_oracle [token; atraxa; sun_quan; atraxa_promo].
Proof.
  apply (collapse_keeps_first [token; atraxa; sun_quan; atraxa_promo]).
  - set_solver.
  - reflexivity.
Defined.

(* ===================================================================== *)
(** * Recency *)
(* ===================================================================== *)

(** C9.  With a window of 0 days [is_recent] returns false for every card
    and every date, and the first pass keeps exactly the cards it keeps
    with the recency rule switched off. *)
Theorem recent_days_zero_disables (today_utc : date) (c : card) :
  is_recent today_utc c 0 = ret false
  /\ forall o, recent_days o = 0%Z ->
       first_pass_keeps o today_utc c
       = first_pass_keeps (set_exclude_recent false o) today_utc c
       /\ forall pool, first_pass o today_utc pool
                       = first_pass (set_exclude_recent false o) today_utc pool.
Proof.
  split; [done|]. intros o Hz.
  assert (forall c', first_pass_keeps o today_utc c'
                     = first_pass_keeps (set_exclude_recent false o) today_utc c')
    as Hk.
  { intros c'. unfold first_pass_keeps. simpl. rewrite Hz.
    by destruct (exclude_recent o). }
  split; [apply Hk|].
  induction pool as [|c' pool IH]; simpl; [done|]. by rewrite Hk, IH.
Qed.

Lemma recent_days_zero_disables_witness :
  first_pass no_window today [atraxa; undated]
  = first_pass (set_exclude_recent false no_window) today [atraxa; undated].
Proof.
  destruct (recent_days_zero_disables today atraxa) as [_ H].
  destruct (H no_window) as [_ Hpool]; [reflexivity|].
  apply Hpool.
Defined.

(** C10.  For a positive window, [is_recent] returns false, without
    raising, for a card that has no release date or whose release date does
    not parse. *)
Theorem undated_is_not_recent (today_utc : date) (c : card) (days : Z) :
  (0 < days)%Z ->
  c !! "released_at" = None
  \/ (exists ra e, c !! "released_at" = Some ra /\ strptime_date ra = raise e) ->
  is_recent today_utc c days = ret false.
Proof.
  intros Hdays Hra. unfold is_recent.
  destruct (Z.leb_spec days 0); [lia|].
  destruct Hra as [->|(ra & e & -> & Hparse)]; [done|].
  destruct ra as [|ch ra]; [done|]. simpl.
  unfold or_empty, py_or. simpl. by rewrite Hparse.
Qed.

Lemma undated_is_not_recent_witness : is_recent today undated 90 = ret false.
Proof.
  apply (undated_is_not_recent today undated 90); [lia|].
  right. exists "soon", (Exn ValueError "time data does not match format").
  split; reflexivity.
Defined.

(* ===================================================================== *)
(** * The catalog fetch *)
(* ===================================================================== *)

Lemma fetch_pages_run (answer : catalog) : forall cards url params,
  fetch_pages cards url params answer
  = (Request url params
       :: flat_map (fun link => [Pause; Request link None]) (links_of answer),
     match failure_of answer with
     | Some e => raise e
     | None => ret (cards ++ concat (pages_of answer))
     end).
Proof.
  induction answer using catalog_chain_ind
    with (P0 := fun more => forall cards url params data,
      fetch_pages cards url params (CatalogPage data more)
      = (Request url params
           :: flat_map (fun link => [Pause; Request link None])
                (links_of (CatalogPage data more)),
         match failure_of (CatalogPage data more) with
         | Some e => raise e
         | None => ret (cards ++ concat (pages_of (CatalogPage data more)))
         end)).
  - done.
  - intros. apply IHanswer.
  - intros. simpl. by rewrite app_nil_r.
  - done.
  - intros cards url params data. simpl.
    rewrite (IHanswer (cards ++ data) next_page None).
    destruct (failure_of answer); [done|]. by rewrite app_assoc.
Qed.

(** X1.  The catalog fetch is all or nothing: when a request of the chain
    fails, or a page announces more without a link, the fetch raises that
    exception whatever it has read; otherwise it returns the cards of all
    the pages, in page order. *)
Theorem fetch_all_or_nothing (answer : catalog) :
  (forall e, failure_of answer = Some e ->
             (fetch_all_scryfall answer).2 = raise e)
  /\ (failure_of answer = None ->
      (fetch_all_scryfall answer).2 = ret (concat (pages_of answer))).
Proof.
  unfold fetch_all_scryfall. rewrite fetch_pages_run. simpl.
  split; [intros e ->|intros ->]; done.
Qed.

Lemma fetch_all_or_nothing_witness :
  (fetch_all_scryfall
     (CatalogPage [atraxa] (More "https://api.scryfall.com/p2"
        (CatalogPage [sun_quan] NoMore)))).2
  = ret [atraxa; sun_quan].
Proof.
  apply (fetch_all_or_nothing
           (CatalogPage [atraxa] (More "https://api.scryfall.com/p2"
              (CatalogPage [sun_quan] NoMore)))).
  reflexivity.
Defined.

(** X2.  The first request goes to the search address with the query
    parameters; every later request goes to the address the page before
    linked, with no parameters, after one pause. *)
Theorem fetch_all_requests (answer : catalog) :
  (fetch_all_scryfall answer).1
  = Request SCRYFALL_API (Some query_params)
      :: flat_map (fun link => [Pause; Request link None]) (links_of answer).
Proof. unfold fetch_all_scryfall. by rewrite fetch_pages_run. Qed.

(* ===================================================================== *)
(** * The metric address *)
(* ===================================================================== *)

Lemma unquote_plus_step (c : ascii) (t : string) :
  Route.unquote_plus (Route.quote_plus (String c t))
  = String c (Route.unquote_plus (Route.quote_plus t)).
Proof.
  destruct c as [[] [] [] [] [] [] [] []]; reflexivity.
Qed.

Lemma unquote_quote_plus (s : string) :
  Route.unquote_plus (Route.quote_plus s) = s.
Proof.
  induction s as [|c t IH]; [done|]. by rewrite unquote_plus_step, IH.
Qed.

Lemma append_cancel (p a b : string) :
  String.append p a = String.append p b -> a = b.
Proof. induction p as [|c p IH]; simpl; [done|]. intros [= H]. by apply IH. Qed.

(** X3.  For cards without an EDHREC link the address is built from the
    name: it is missing exactly when the name is missing, and two cards get
    the same address only if they have the same name. *)
Theorem route_url_from_name (rel1 rel2 : option (gmap string string))
    (c1 c2 : card) :
  default ∅ rel1 !! "edhrec" = None ->
  default ∅ rel2 !! "edhrec" = None ->
  (Route.edhrec_route_url rel1 c1 = None <-> c1 !! "name" = None)
  /\ (forall u, Route.edhrec_route_url rel1 c1 = Some u ->
                 Route.edhrec_route_url rel2 c2 = Some u ->
                 c1 !! "name" = c2 !! "name").
Proof.
  intros H1 H2. unfold Route.edhrec_route_url. rewrite H1, H2. split.
  - destruct (c1 !! "name"); simpl; split; done.
  - intros u. destruct (c1 !! "name") as [n1|], (c2 !! "name") as [n2|];
      simpl; try done.
    intros [= <-] [= E%append_cancel]. f_equal.
    by rewrite <- (unquote_quote_plus n1), <- (unquote_quote_plus n2), E.
Qed.

Lemma route_url_from_name_witness :
  Route.edhrec_route_url None atraxa = None <-> atraxa !! "name" = None.
Proof. apply (route_url_from_name None None atraxa atraxa); reflexivity. Defined.

(** X4.  [quote_plus] yields only letters, digits and the characters
    [_ . - ~ + %]: the address built from a name has no space and no
    separator of its own. *)
Theorem quote_plus_alphabet (s : string) :
  Forall (fun c => Route.always_safe c = true \/ c = "+"%char \/ c = "%"%char)
    (list_ascii_of_string (Route.quote_plus s)).
Proof.
  assert (forall n, n < 16 -> Route.always_safe (Route.hex_digit n) = true) as Hhex.
  { intros n Hn. do 16 (destruct n as [|n]; [reflexivity|]). lia. }
  induction s as [|c t IH]; [constructor|].
  assert (code c / 16 < 16) as Hdiv.
  { apply Nat.Div0.div_lt_upper_bound. unfold code.
    pose proof (nat_ascii_bounded c). lia. }
  assert (code c mod 16 < 16) as Hmod by (by apply Nat.mod_upper_bound).
  cbn [Route.quote_plus].
  destruct (Route.always_safe c) eqn:Hsafe; [|destruct (Ascii.eqb c " ")];
    cbn [list_ascii_of_string].
  - constructor; [by left|done].
  - constructor; [right; by left|done].
  - constructor; [right; by right|].
    constructor; [left; by apply Hhex|].
    constructor; [left; by apply Hhex|done].
Qed.

(** X5.  Building the list of commanders fails exactly when a card of
    the pool has no name, be it with an EDHREC link; otherwise it yields one
    commander per card, in order, under the card's name. *)
Theorem commanders_need_names (related_uris : card -> option (gmap string string))
    (pool : list card) :
  (Route.commanders related_uris pool = None
   <-> exists c, c ∈ pool /\ c !! "name" = None)
  /\ (forall cs, Route.commanders related_uris pool = Some cs ->
                 Some <$> (cmdr_name <$> cs) = (fun c : card => c !! "name") <$> pool).
Proof.
  induction pool as [|c pool [IH1 IH2]]; simpl.
  - split; [|by intros cs [= <-]].
    split; [done|]. intros (c & Hc & _). by apply elem_of_nil in Hc.
  - destruct (c !! "name") as [n|] eqn:Hn; simpl.
    + assert (exists url, Route.edhrec_route_url (related_uris c) c = Some url)
        as [url ->].
      { unfold Route.edhrec_route_url. rewrite Hn.
        destruct (default ∅ (related_uris c) !! "edhrec"); simpl; eauto. }
      simpl. destruct (Route.commanders related_uris pool) as [rest|]; simpl.
      * split.
        -- split; [done|]. intros (c' & [->|Hc']%elem_of_cons & Hnone).
           ++ congruence.
           ++ assert (Some rest = None) as [=]. apply IH1. eauto.
        -- intros cs [= <-]. simpl. f_equal. by apply IH2.
      * split; [|done]. split; [|done]. intros _.
        destruct IH1 as [IH1 _]. destruct (IH1 eq_refl) as (c' & Hc' & Hnone).
        exists c'. split; [by right|done].
    + split; [|done]. split; [|done]. intros _. exists c. split; [by left|done].
Qed.

Lemma commanders_need_names_witness :
  Some <$> (cmdr_name <$> [mkCommander "Atraxa" "https://edhrec.com/route/?cc=Atraxa"])
  = (fun c : card => c !! "name") <$> [atraxa].
Proof.
  destruct (commanders_need_names (fun _ => None) [atraxa]) as [_ H].
  apply H. reflexivity.
Defined.

(* ===================================================================== *)
(** * The filter predicates *)
(* ===================================================================== *)

Section Substrings.
Implicit Types a b c p s : string.

Lemma prefix_spec a b :
  String.prefix a b = true <-> exists s, b = String.append a s.
Proof.
  revert a. induction b as [|y b IH]; intros [|x a]; simpl.
  - split; [by exists EmptyString|done].
  - split; [done|by intros [s [=]]].
  - split; [eauto|done].
  - destruct (ascii_dec x y) as [->|Hne].
    + rewrite IH. split; intros [s Hs]; exists s; [by rewrite Hs|by injection Hs].
    + split; [done|]. intros [s [= ? _]]. congruence.
Qed.

Lemma str_in_spec a b :
  str_in a b = true <-> exists p s, b = String.append p (String.append a s).
Proof.
  induction b as [|y b IH]; cbn [str_in].
  - rewrite orb_false_r, prefix_spec. split.
    + intros [s Hs]. by exists EmptyString, s.
    + intros (p & s & Hs). destruct p; simpl in Hs; [eauto|done].
  - rewrite orb_true_iff, IH, prefix_spec. split.
    + intros [[s Hs]|(p & s & ->)].
      * by exists EmptyString, s.
      * by exists (String y p), s.
    + intros (p & s & Hs). destruct p as [|x p]; simpl in Hs.
      * left. eauto.
      * right. injection Hs as -> ->. eauto.
Qed.

Lemma append_assoc a b c :
  String.append (String.append a b) c = String.append a (String.append b c).
Proof.
  induction a as [|x a IH]; [done|].
  change (String x (String.append (String.append a b) c)
          = String x (String.append a (String.append b c))).
  by f_equal.
Qed.

Lemma str_in_trans a b c :
  str_in a b = true -> str_in b c = true -> str_in a c = true.
Proof.
  rewrite !str_in_spec. intros (p & s & ->) (p' & s' & ->).
  exists (String.append p' p), (String.append s s').
  by rewrite !append_assoc.
Qed.
End Substrings.

(** X6.  Every card with the Doctor's companion mechanic also counts as a
    companion card.  So while companions are excluded, the switch for
    Doctor's companions changes nothing in the first pass. *)
Theorem doctors_companion_is_companion (c : card) :
  (has_doctors_companion c = true -> has_companion c = true)
  /\ forall o today_utc,
       exclude_companion o = true ->
       first_pass_keeps o today_utc c
       = first_pass_keeps (set_exclude_doctors_companion false o) today_utc c.
Proof.
  assert (has_doctors_companion c = true -> has_companion c = true) as Himp.
  { unfold has_doctors_companion, has_companion, DOCTORS_COMPANION_MARKERS.
    simpl. rewrite orb_false_r.
    intros [H|H]%orb_true_iff;
      (eapply str_in_trans; [|exact H]); reflexivity. }
  split; [done|].
  intros o today_utc Hex. unfold first_pass_keeps. simpl. rewrite Hex. simpl.
  destruct (has_companion c) eqn:Hc.
  - by repeat (match goal with |- context [if ?b then _ else _] => destruct b end).
  - destruct (has_doctors_companion c); [by discriminate Himp|].
    by rewrite !andb_false_r.
Qed.

Lemma doctors_companion_is_companion_witness :
  first_pass_keeps no_window today atraxa
  = first_pass_keeps (set_exclude_doctors_companion false no_window) today atraxa.
Proof. apply (doctors_companion_is_companion atraxa). reflexivity. Defined.

(** X7.  The marker [partner with] is covered by [partner]: a card has a
    partner ability exactly when its lower-cased text contains [partner] or
    [friends forever]. *)
Theorem has_partner_markers (c : card) :
  has_partner c
  = str_in "partner" (oracle_text_lower c)
    || str_in "friends forever" (oracle_text_lower c).
Proof.
  unfold has_partner, PARTNER_MARKERS. simpl. rewrite orb_false_r.
  destruct (str_in "partner with" (oracle_text_lower c)) eqn:H; [|done].
  simpl. symmetry. apply orb_true_iff. left.
  eapply str_in_trans; [|exact H]. reflexivity.
Qed.

Section Strip.
Lemma lstrip_all_space s : all_chars is_space s = true -> lstrip s = EmptyString.
Proof.
  induction s as [|c t IH]; simpl; [done|].
  intros [Hc Ht]%andb_true_iff. rewrite Hc. by apply IH.
Qed.

Lemma lstrip_some_char s :
  all_chars is_space s = false -> all_chars is_space (lstrip s) = false.
Proof.
  induction s as [|c t IH]; simpl; [done|].
  destruct (is_space c) eqn:Hc; simpl; [done|]. by rewrite Hc.
Qed.

Lemma rev_onto_some_char s acc :
  all_chars is_space acc = false -> all_chars is_space (rev_onto s acc) = false.
Proof.
  revert acc. induction s as [|c t IH]; intros acc Hacc; simpl; [done|].
  apply IH. simpl. rewrite Hacc. apply andb_false_r.
Qed.

Lemma rev_onto_all_space s acc :
  all_chars is_space (rev_onto s acc)
  = all_chars is_space s && all_chars is_space acc.
Proof.
  revert acc. induction s as [|c t IH]; intros acc; simpl; [done|].
  rewrite IH. simpl. by destruct (is_space c), (all_chars is_space t).
Qed.

Lemma strip_empty_iff s :
  (String.length (strip s) =? 0) = all_chars is_space s.
Proof.
  unfold strip, str_reverse.
  destruct (all_chars is_space s) eqn:Hs.
  - by rewrite (lstrip_all_space s Hs).
  - apply lstrip_some_char in Hs.
    assert (all_chars is_space (lstrip (rev_onto (lstrip s) EmptyString)) = false)
      as H.
    { apply lstrip_some_char. rewrite rev_onto_all_space.
      by rewrite Hs. }
    set (u := lstrip (rev_onto (lstrip s) EmptyString)) in *.
    assert (all_chars is_space (rev_onto u EmptyString) = false) as H'
      by (by rewrite rev_onto_all_space, H).
    by destruct (rev_onto u EmptyString).
Qed.
End Strip.

(** X8.  A card is vanilla exactly when its rules text is missing, empty
    or made of white space only. *)
Theorem is_vanilla_blank (c : card) :
  is_vanilla c = all_chars is_space (or_empty (c !! "oracle_text")).
Proof. unfold is_vanilla. apply strip_empty_iff. Qed.

(* ===================================================================== *)
(** * The first pass *)
(* ===================================================================== *)

Lemma timedelta_in_range days :
  (0 < days <= 999999999)%Z -> timedelta days = ret days.
Proof.
  intros H. unfold timedelta.
  destruct (Z.leb_spec (Z.abs days) 999999999); [done|lia].
Qed.

(** X9.  [is_recent] raises only for a window above 999999999 days on a
    card whose release date parses: then it raises whatever the date is. *)
Theorem is_recent_raises_iff (today_utc : date) (c : card) (days : Z) :
  (exists e, is_recent today_utc c days = raise e)
  <-> (999999999 < days)%Z
      /\ exists ra d, c !! "released_at" = Some ra /\ strptime_date ra = ret d.
Proof.
  unfold is_recent.
  destruct (Z.leb_spec days 0) as [Hle|Hpos].
  { split; [by intros [e [=]]|]. intros [H _]. lia. }
  destruct (c !! "released_at") as [ra|] eqn:Hra; simpl;
    [|split; [by intros [e [=]]|by intros [_ (? & ? & [=] & _)]]].
  destruct ra as [|ch ra]; simpl.
  { split; [by intros [e [=]]|]. by intros [_ (? & ? & [= <-] & [=])]. }
  unfold or_empty, py_or. simpl.
  destruct (strptime_date (String ch ra)) as [e|d] eqn:Hparse.
  { split; [by intros [e' [=]]|]. intros [_ (? & ? & [= <-] & H)]. unfold ret in H. congruence. }
  unfold timedelta.
  destruct (Z.leb_spec (Z.abs days) 999999999) as [Hin|Hout]; simpl.
  - split; [by intros [e [=]]|]. intros [H _]. lia.
  - split; [|eauto]. intros _. split; [lia|eauto].
Qed.

Lemma is_recent_in_range today_utc c days :
  (days <= 999999999)%Z -> exists r, is_recent today_utc c days = ret r.
Proof.
  intros Hdays. unfold is_recent.
  destruct (days <=? 0)%Z eqn:Hle; [eauto|]. apply Z.leb_gt in Hle.
  destruct (negb (truthy (c !! "released_at"))); [eauto|].
  destruct (strptime_date (or_empty (c !! "released_at"))); [eauto|].
  rewrite timedelta_in_range by lia. simpl. eauto.
Qed.

Lemma first_pass_keeps_total o today_utc c :
  exclude_recent o = false \/ (recent_days o <= 999999999)%Z ->
  first_pass_keeps o today_utc c = ret (kept_by_first_pass o today_utc c).
Proof.
  intros Hsafe. unfold kept_by_first_pass.
  destruct (first_pass_keeps o today_utc c) as [e|keep] eqn:Hk; [|done].
  exfalso. unfold first_pass_keeps in Hk.
  repeat (match type of Hk with
          | (if ?b then _ else _) = _ => destruct b; [discriminate Hk|]
          end).
  assert (exists r, (if exclude_recent o
                     then is_recent today_utc c (recent_days o)
                     else ret false) = ret r) as [r Hr].
  { destruct (exclude_recent o); [|eauto].
    destruct Hsafe as [?|Hdays]; [done|]. by apply is_recent_in_range. }
  rewrite Hr in Hk. simpl in Hk.
  repeat (match type of Hk with
          | (if ?b then _ else _) = _ => destruct b; try discriminate Hk
          end).
Qed.

Lemma first_pass_inv o today_utc pool prelim :
  first_pass o today_utc pool = ret prelim ->
  prelim = filter (kept_by_first_pass o today_utc) pool
  /\ Forall (fun c => first_pass_keeps o today_utc c = ret true) prelim.
Proof.
  revert prelim. induction pool as [|c pool IH]; intros prelim; simpl.
  - intros [= <-]. by split; [|constructor].
  - destruct (first_pass_keeps o today_utc c) as [e|keep] eqn:Hk; [done|]. simpl.
    destruct (first_pass o today_utc pool) as [e|rest]; [done|]. simpl.
    intros [= <-]. destruct (IH rest eq_refl) as [-> Hall].
    assert (kept_by_first_pass o today_utc c = keep) as Hkeep
      by (unfold kept_by_first_pass; by rewrite Hk).
    rewrite filter_cons, Hkeep.
    destruct keep; simpl; split; try done. by constructor.
Qed.

Lemma first_pass_of_kept o today_utc l :
  Forall (fun c => first_pass_keeps o today_utc c = ret true) l ->
  first_pass o today_utc l = ret l.
Proof.
  induction 1 as [|c l Hc _ IH]; simpl; [done|]. by rewrite Hc, IH.
Qed.

(** X10.  When the first pass returns, it returns the cards of the pool
    it keeps one by one, in the order of the pool, and running it again on
    its own result changes nothing.  It returns whenever the recency rule
    is off or the window is at most 999999999 days. *)
Theorem first_pass_is_a_filter (o : filter_options) (today_utc : date)
    (pool : list card) :
  (forall prelim, first_pass o today_utc pool = ret prelim ->
     prelim = filter (kept_by_first_pass o today_utc) pool
     /\ sublist prelim pool
     /\ first_pass o today_utc prelim = ret prelim)
  /\ (exclude_recent o = false \/ (recent_days o <= 999999999)%Z ->
      exists prelim, first_pass o today_utc pool = ret prelim).
Proof.
  split.
  - intros prelim Hrun. destruct (first_pass_inv _ _ _ _ Hrun) as [-> Hall].
    split_and!; [done|apply sublist_filter|by apply first_pass_of_kept].
  - intros Hsafe. induction pool as [|c pool [prelim IH]]; simpl; [eauto|].
    rewrite (first_pass_keeps_total o today_utc c Hsafe), IH. simpl. eauto.
Qed.

Lemma first_pass_is_a_filter_witness :
  exists prelim, first_pass no_window today [atraxa; token; undated] = ret prelim.
Proof.
  apply (first_pass_is_a_filter no_window today [atraxa; token; undated]).
  right. simpl. lia.
Defined.

(* ===================================================================== *)
(** * Dates *)
(* ===================================================================== *)

Lemma days_in_month_bounds y m : (28 <= days_in_month y m <= 31)%Z.
Proof.
  unfold days_in_month.
  repeat (match goal with |- context [if ?b then _ else _] => destruct b end); lia.
Qed.

Lemma days_before_month_from_mono y m1 m2 :
  m1 <= m2 -> (days_before_month_from y m1 <= days_before_month_from y m2)%Z.
Proof.
  induction 1 as [|m2 _ IH]; [lia|]. simpl.
  pose proof (days_in_month_bounds y (Z.of_nat (S m2))). lia.
Qed.

Lemma days_before_month_from_year y :
  days_before_month_from y 12 = (if is_leap y then 366 else 365)%Z.
Proof.
  unfold days_before_month_from, days_in_month. simpl. destruct (is_leap y); lia.
Qed.

Lemma days_before_year_succ y :
  days_before_year (y + 1)
  = (days_before_year y + if is_leap y then 366 else 365)%Z.
Proof.
  unfold days_before_year, is_leap.
  replace (y + 1 - 1)%Z with y by lia.
  destruct (Z.eqb_spec (y mod 4) 0), (Z.eqb_spec (y mod 100) 0),
    (Z.eqb_spec (y mod 400) 0); simpl;
    Z.to_euclidean_division_equations; lia.
Qed.

Lemma days_before_year_mono y1 y2 :
  (y1 <= y2)%Z -> (days_before_year y1 <= days_before_year y2)%Z.
Proof.
  intros H. replace y2 with (y1 + Z.of_nat (Z.to_nat (y2 - y1)))%Z by lia.
  induction (Z.to_nat (y2 - y1)) as [|n IH]; [by rewrite Z.add_0_r|].
  replace (y1 + Z.of_nat (S n))%Z with (y1 + Z.of_nat n + 1)%Z by lia.
  rewrite days_before_year_succ. destruct (is_leap _); lia.
Qed.

Lemma toordinal_bounds d :
  valid_date d ->
  (days_before_year (year d) < toordinal d <= days_before_year (year d + 1))%Z.
Proof.
  intros (Hy & Hm & Hd). unfold toordinal.
  pose proof (days_before_month_from_mono (year d) 0 (Z.to_nat (month d) - 1)
                ltac:(lia)) as H0. simpl in H0.
  pose proof (days_before_month_from_mono (year d) (Z.to_nat (month d)) 12
                ltac:(lia)) as H12.
  rewrite days_before_month_from_year in H12.
  rewrite days_before_year_succ.
  assert (days_before_month_from (year d) (Z.to_nat (month d))
          = (days_before_month_from (year d) (Z.to_nat (month d) - 1)
             + days_in_month (year d) (month d))%Z) as Hstep.
  { replace (Z.to_nat (month d)) with (S (Z.to_nat (month d) - 1)) at 1 by lia.
    simpl. do 2 f_equal. lia. }
  destruct (is_leap (year d)); lia.
Qed.

(** On calendar dates the day number grows with the date. *)
Lemma toordinal_increasing (d1 d2 : date) :
  valid_date d1 -> valid_date d2 -> date_lt d1 d2 ->
  (toordinal d1 < toordinal d2)%Z.
Proof.
  intros H1 H2 Hlt.
  destruct Hlt as [Hy|[Hy [Hm|[Hm Hd]]]].
  - pose proof (toordinal_bounds d1 H1). pose proof (toordinal_bounds d2 H2).
    pose proof (days_before_year_mono (year d1 + 1) (year d2) ltac:(lia)). lia.
  - destruct H1 as (_ & Hm1 & Hd1), H2 as (_ & Hm2 & Hd2).
    unfold toordinal. rewrite Hy.
    pose proof (days_before_month_from_mono (year d2) (Z.to_nat (month d1))
                  (Z.to_nat (month d2) - 1) ltac:(lia)) as Hmono.
    assert (days_before_month_from (year d2) (Z.to_nat (month d1))
            = (days_before_month_from (year d2) (Z.to_nat (month d1) - 1)
               + days_in_month (year d2) (month d1))%Z) as Hstep.
    { replace (Z.to_nat (month d1)) with (S (Z.to_nat (month d1) - 1)) at 1 by lia.
      simpl. do 2 f_equal. lia. }
    rewrite Hy in Hd1. lia.
  - unfold toordinal. rewrite Hy, Hm. lia.
Qed.


Section Strptime.
Lemma take_class_range lo hi s v t :
  48 <= lo -> take_class lo hi s = Some (v, t) ->
  (Z.of_nat lo - 48 <= v <= Z.of_nat hi - 48)%Z
  /\ exists c, s = String c t /\ v = digit_val c.
Proof.
  intros Hlo. unfold take_class, in_range.
  destruct s as [|c s]; [done|].
  destruct (Nat.leb_spec lo (code c)); [|done].
  destruct (Nat.leb_spec (code c) hi); [|done]. simpl.
  intros [= <- <-]. split; [unfold digit_val; lia|eauto].
Qed.

Lemma two_range lo1 hi1 lo2 hi2 s v t :
  48 <= lo1 -> 48 <= lo2 -> two lo1 hi1 lo2 hi2 s = Some (v, t) ->
  (10 * (Z.of_nat lo1 - 48) + (Z.of_nat lo2 - 48) <= v
   <= 10 * (Z.of_nat hi1 - 48) + (Z.of_nat hi2 - 48))%Z.
Proof.
  intros H1 H2. unfold two.
  destruct (take_class lo1 hi1 s) as [[a s1]|] eqn:Ha; [|done]. simpl.
  destruct (take_class lo2 hi2 s1) as [[b s2]|] eqn:Hb; [|done]. simpl.
  intros [= <- <-].
  apply take_class_range in Ha as [Ha _]; [|done].
  apply take_class_range in Hb as [Hb _]; [|done]. lia.
Qed.

Lemma alternation_inv {T} alts (k : Z -> string -> option T) s r :
  alternation alts k s = Some r ->
  exists alt v s', alt ∈ alts /\ alt s = Some (v, s') /\ k v s' = Some r.
Proof.
  induction alts as [|alt alts IH]; simpl; [done|].
  destruct (alt s ≫= _) as [r'|] eqn:Halt.
  - intros [= <-]. destruct (alt s) as [[v s']|] eqn:Hv; [|done].
    exists alt, v, s'. split_and!; [by left|done|done].
  - intros (alt' & v & s' & Hin & ? & ?)%IH.
    exists alt', v, s'. split_and!; [by right|done|done].
Qed.

Lemma directive_m_range alt s v t :
  alt ∈ directive_m -> alt s = Some (v, t) -> (1 <= v <= 12)%Z.
Proof.
  unfold directive_m. rewrite !elem_of_cons, elem_of_nil.
  intros [->|[->|[->|[]]]] H.
  - apply two_range in H; lia.
  - apply two_range in H; lia.
  - apply take_class_range in H as [H _]; lia.
Qed.

Lemma directive_d_range alt s v t :
  alt ∈ directive_d -> alt s = Some (v, t) -> (1 <= v <= 31)%Z.
Proof.
  unfold directive_d. rewrite !elem_of_cons, elem_of_nil.
  intros [->|[->|[->|[->|[->|[]]]]]] H.
  - apply two_range in H; lia.
  - apply two_range in H; lia.
  - apply two_range in H; lia.
  - apply take_class_range in H as [H _]; lia.
  - destruct (expect " " s) as [s'|]; [|done]. simpl in H.
    apply take_class_range in H as [H _]; lia.
Qed.

Lemma format_regex_match_range s y m d rest :
  format_regex_match s = Some (y, m, d, rest) ->
  (1 <= m <= 12 /\ 1 <= d <= 31)%Z.
Proof.
  unfold format_regex_match.
  destruct (directive_Y s) as [[y' s1]|]; [|done]. cbn -[alternation].
  destruct (expect "-" s1) as [s2|]; [|done]. cbn -[alternation].
  intros (alt & m' & s3 & Hin & Hm & Hk)%alternation_inv.
  destruct (expect "-" s3) as [s4|]; [|done]. cbn -[alternation] in Hk.
  apply alternation_inv in Hk as (alt' & d' & s5 & Hin' & Hd & [= -> -> -> ->]).
  split; [by eapply directive_m_range|by eapply directive_d_range].
Qed.

Lemma strptime_date_valid s d : strptime_date s = ret d -> valid_date d.
Proof.
  unfold strptime_date.
  destruct (format_regex_match s) as [[[[y m] d'] rest]|] eqn:Hm; [|done].
  destruct rest; [|done].
  destruct (_ && _) eqn:Hok; [|done]. intros [= <-].
  apply format_regex_match_range in Hm.
  apply andb_true_iff in Hok as [[H1 H2]%andb_true_iff H3].
  unfold valid_date. simpl. lia.
Qed.
End Strptime.

(** X11.  For a window of 1 to 999999999 days and a release date that
    parses, [is_recent] compares day numbers: the card is recent exactly
    when it came out at most [days] days before today.  So a card dated
    today or later is recent, and if a card is recent then so is every card
    released later, and so is the same card under every wider window. *)
Theorem is_recent_by_age (today_utc : date) (c : card) (ra : string)
    (d : date) (days : Z) :
  (0 < days <= 999999999)%Z ->
  c !! "released_at" = Some ra -> strptime_date ra = ret d ->
  is_recent today_utc c days
  = ret (toordinal today_utc - toordinal d <=? days)%Z
  /\ (valid_date today_utc -> today_utc = d \/ date_lt today_utc d ->
      is_recent today_utc c days = ret true)
  /\ (forall c' ra' d',
        c' !! "released_at" = Some ra' -> strptime_date ra' = ret d' ->
        date_lt d d' -> is_recent today_utc c days = ret true ->
        is_recent today_utc c' days = ret true)
  /\ (forall days', (days <= days' <= 999999999)%Z ->
        is_recent today_utc c days = ret true ->
        is_recent today_utc c days' = ret true).
Proof.
  intros Hdays Hra Hparse.
  assert (forall c0 ra0 d0 days0,
    (0 < days0 <= 999999999)%Z ->
    c0 !! "released_at" = Some ra0 -> strptime_date ra0 = ret d0 ->
    is_recent today_utc c0 days0
    = ret (toordinal today_utc - toordinal d0 <=? days0)%Z) as Hage.
  { intros c0 ra0 d0 days0 Hd0 Hra0 Hp0. unfold is_recent.
    destruct (Z.leb_spec days0 0); [lia|]. rewrite Hra0.
    destruct ra0 as [|ch ra0]; [done|]. simpl.
    unfold or_empty, py_or. simpl. rewrite Hp0.
    by rewrite timedelta_in_range. }
  pose proof (strptime_date_valid _ _ Hparse) as Hvalid.
  split_and!.
  - by eapply Hage.
  - intros Htoday Hlater. rewrite (Hage c ra d days) by done.
    do 2 f_equal. apply Z.leb_le.
    destruct Hlater as [->|Hlt]; [lia|].
    pose proof (toordinal_increasing _ _ Htoday Hvalid Hlt). lia.
  - intros c' ra' d' Hra' Hparse' Hlt.
    rewrite (Hage c ra d days), (Hage c' ra' d' days) by done.
    intros [= Hle]. do 2 f_equal. apply Z.leb_le. apply Z.leb_le in Hle.
    pose proof (toordinal_increasing _ _ Hvalid
                  (strptime_date_valid _ _ Hparse') Hlt). lia.
  - intros days' Hdays'.
    rewrite (Hage c ra d days), (Hage c ra d days') by (done || lia).
    intros [= Hle]. do 2 f_equal. apply Z.leb_le. apply Z.leb_le in Hle. lia.
Qed.

Lemma is_recent_by_age_witness :
  is_recent today (<["released_at" := "2026-09-01"]> atraxa) 90
  = ret (toordinal today - toordinal (mkDate 2026 9 1) <=? 90)%Z.
Proof.
  destruct (is_recent_by_age today (<["released_at" := "2026-09-01"]> atraxa)
              "2026-09-01" (mkDate 2026 9 1) 90) as [H _];
    [lia|reflexivity|reflexivity|exact H].
Defined.

Section Isoformat.
Lemma Z_range_nat (n lo hi : Z) :
  (lo <= n <= hi)%Z ->
  exists k, k <= Z.to_nat (hi - lo) /\ n = (lo + Z.of_nat k)%Z.
Proof. intros H. exists (Z.to_nat (n - lo)). lia. Qed.

Lemma take_digit_char n t :
  (0 <= n <= 9)%Z -> take_class 48 57 (String (digit_char n) t) = Some (n, t).
Proof.
  intros (k & Hk & ->)%Z_range_nat. simpl in Hk.
  do 10 (destruct k as [|k]; [reflexivity|]). lia.
Qed.

Lemma directive_Y_isoformat y t :
  (1 <= y <= 9999)%Z ->
  directive_Y (String (digit_char (y / 1000))
                 (String (digit_char (y / 100 mod 10))
                    (String (digit_char (y / 10 mod 10))
                       (String (digit_char (y mod 10)) t))))
  = Some (y, t).
Proof.
  intros Hy. unfold directive_Y.
  rewrite take_digit_char by (Z.to_euclidean_division_equations; lia).
  cbn [mbind option_bind].
  rewrite take_digit_char by (Z.to_euclidean_division_equations; lia).
  cbn [mbind option_bind].
  rewrite take_digit_char by (Z.to_euclidean_division_equations; lia).
  cbn [mbind option_bind].
  rewrite take_digit_char by (Z.to_euclidean_division_equations; lia).
  cbn [mbind option_bind]. do 2 f_equal.
  Z.to_euclidean_division_equations; lia.
Qed.

Lemma format_regex_match_isoformat d :
  valid_date d ->
  format_regex_match (isoformat d)
  = Some (year d, month d, day d, EmptyString).
Proof.
  destruct d as [y m dd]. unfold valid_date. cbn [year month day].
  intros (Hy & Hm & Hd).
  assert (1 <= dd <= 31)%Z as Hdd
    by (pose proof (days_in_month_bounds y m); lia).
  unfold format_regex_match, isoformat. cbn [year month day].
  rewrite directive_Y_isoformat by done. cbn [mbind option_bind].
  apply Z_range_nat in Hm as (i & Hi & ->).
  apply Z_range_nat in Hdd as (j & Hj & ->).
  simpl in Hi, Hj.
  do 12 (destruct i as [|i];
         [do 31 (destruct j as [|j]; [reflexivity|]); lia|]).
  lia.
Qed.
End Isoformat.

(** X12.  Every calendar date in ISO form parses back to itself: the
    release date of a card given as [YYYY-MM-DD] is never taken for a
    missing one. *)
Theorem strptime_isoformat (d : date) :
  valid_date d -> strptime_date (isoformat d) = ret d.
Proof.
  intros Hvalid. unfold strptime_date.
  rewrite (format_regex_match_isoformat d Hvalid).
  destruct Hvalid as (Hy & Hm & Hd), d as [y m dd]. cbn [year month day] in *.
  destruct (Z.leb_spec 1 y); [|lia].
  destruct (Z.leb_spec y 9999); [|lia].
  destruct (Z.leb_spec dd (days_in_month y m)); [|lia]. done.
Qed.

Lemma strptime_isoformat_witness :
  strptime_date (isoformat (mkDate 2024 2 29)) = ret (mkDate 2024 2 29).
Proof.
  apply strptime_isoformat. unfold valid_date. cbn [year month day].
  change (days_in_month 2024 2) with 29%Z. lia.
Defined.

(* ===================================================================== *)
(** * Deduplication, again *)
(* ===================================================================== *)

Lemma collapse_loop_sublist cards : forall acc,
  exists rest, collapse_loop acc cards = acc ++ rest /\ sublist rest.*2 cards.
Proof.
  induction cards as [|c cards IH]; intros acc; simpl.
  - exists []. by rewrite app_nil_r.
  - destruct (is_commander_face c); simpl.
    + destruct (dict_has (commander_key c) acc).
      * destruct (IH acc) as (rest & -> & Hsub). exists rest.
        split; [done|]. by apply sublist_cons.
      * destruct (IH (acc ++ [(commander_key c, c)])) as (rest & -> & Hsub).
        exists ((commander_key c, c) :: rest). rewrite <- app_assoc.
        split; [done|]. simpl. by apply sublist_skip.
    + destruct (IH acc) as (rest & -> & Hsub). exists rest.
      split; [done|]. by apply sublist_cons.
Qed.

Lemma collapse_loop_fresh l : forall acc,
  Forall (fun c => is_commander_face c = true) l ->
  NoDup (acc.*1 ++ (commander_key <$> l)) ->
  collapse_loop acc l = acc ++ ((fun c => (commander_key c, c)) <$> l).
Proof.
  induction l as [|c l IH]; intros acc Hface Hnd; simpl.
  - by rewrite app_nil_r.
  - destruct (Forall_cons_1 _ _ _ Hface) as [Hc Hrest]. rewrite Hc. simpl.
    unfold dict_has. rewrite bool_decide_eq_false_2.
    + rewrite IH; [by rewrite <- app_assoc|done|].
      rewrite fmap_app. simpl. by rewrite <- app_assoc.
    + simpl in Hnd. apply NoDup_app in Hnd as (_ & Hdisj & _).
      intros Hin. apply (Hdisj _ Hin). by left.
Qed.

(** X13.  The pool keeps the cards in the order of the input, and
    collapsing a pool again gives the same pool. *)
Theorem collapse_by_oracle_stable (cards : list card) :
  sublist (collapse_by_oracle cards) cards
  /\ collapse_by_oracle (collapse_by_oracle cards) = collapse_by_oracle cards.
Proof.
  unfold collapse_by_oracle. split.
  - destruct (collapse_loop_sublist cards []) as (rest & -> & Hsub). done.
  - destruct (collapse_loop_spec cards []) as (rest & -> & Hnd & Hkeys & Hmem);
      [constructor|]. simpl in *.
    rewrite (collapse_loop_fresh rest.*2 []).
    + simpl. rewrite <- list_fmap_compose. by apply list_fmap_id.
    + apply Forall_forall. intros c Hc%Hmem.
      by destruct Hc as (_ & before & after & _ & Hface & _).
    + simpl. by rewrite <- Hkeys.
Qed.

(* ===================================================================== *)
(** * The PTK filter *)
(* ===================================================================== *)

Lemma has_ptk_printing_app l1 l2 :
  has_ptk_printing (l1 ++ l2) = has_ptk_printing l1 || has_ptk_printing l2.
Proof. unfold has_ptk_printing. apply existsb_app. Qed.

Lemma ptk_scan_reads answer ptk :
  ptk_scan answer = ret ptk -> ptk = has_ptk_printing (printings_read answer).
Proof.
  induction answer as [e|data|data next_page answer IH]; cbn [ptk_scan printings_read].
  - done.
  - by intros [= <-].
  - rewrite has_ptk_printing_app.
    destruct (has_ptk_printing data); [by intros [= <-]|].
    destruct (truthy (Some next_page)); [by apply IH|by intros [= <-]].
Qed.

(** X14.  For a card with a printings address, a strict check that meets
    no failing request answers by the printings it read alone: the card is
    PTK exactly when one of them is, whatever the card's own set says. *)
Theorem strict_check_by_printings (answer : printings) (c : card) :
  truthy (c !! "prints_search_uri") = true ->
  (forall e, ~ scan_fails answer e) ->
  is_ptk_strict answer c = ret (has_ptk_printing (printings_read answer)).
Proof.
  intros Huri Hok. unfold is_ptk_strict. rewrite Huri. simpl.
  destruct (ptk_scan answer) as [e|ptk] eqn:Hscan.
  - by apply scan_fails_raises, Hok in Hscan.
  - simpl. by rewrite (ptk_scan_reads _ _ Hscan).
Qed.

Lemma strict_check_by_printings_witness :
  is_ptk_strict
    (Page [Some "m3c"] "https://api.scryfall.com/p2" (LastPage [Some "PTK"]))
    (<["set" := "m3c"]> sun_quan)
  = ret true.
Proof.
  apply (strict_check_by_printings
           (Page [Some "m3c"] "https://api.scryfall.com/p2" (LastPage [Some "PTK"]))
           (<["set" := "m3c"]> sun_quan)).
  - reflexivity.
  - intros e H. inversion H as [|? ? ? ? _ _ H']; subst. inversion H'.
Defined.

(** X15.  Whatever the PTK mode, the cards that [apply_filters_async]
    returns are cards the first pass kept; in fast mode none of them looks
    like PTK, and in strict mode none of them has a strict verdict of
    PTK. *)
Theorem apply_filters_survivors (today_utc : date) (prints : card -> printings)
    (as_completed : list card -> list card) (pool : list card)
    (o : filter_options) (out : list card) :
  (forall l, as_completed l ≡ₚ l) ->
  apply_filters_async today_utc prints as_completed pool o = ret out ->
  exists prelim,
    first_pass o today_utc pool = ret prelim
    /\ out ⊆+ prelim
    /\ (exclude_ptk o = false -> out = prelim)
    /\ (exclude_ptk o = true -> ptk_strict o = false ->
        Forall (fun c => looks_like_ptk_fast c = false) out)
    /\ (exclude_ptk o = true -> ptk_strict o = true ->
        Forall (fun c => strict_verdict (prints c) c = false) out).
Proof.
  intros Hperm. unfold apply_filters_async.
  destruct (first_pass o today_utc pool) as [e|prelim]; [done|]. simpl.
  destruct (exclude_ptk o), (ptk_strict o); simpl.
  - unfold strict_semaphore, Semaphore.
    destruct (Z.ltb_spec (Z.max 2 (concurrency o)) 0); [lia|]. simpl.
    rewrite gather_checks. intros [= <-]. exists prelim.
    split_and!; try done.
    + rewrite <- (Hperm prelim) at 2. apply sublist_submseteq, sublist_filter.
    + intros _ _. apply Forall_forall. intros c [Hc _]%list_elem_of_filter.
      by destruct (strict_verdict (prints c) c).
  - intros [= <-]. exists prelim. split_and!; try done.
    + apply sublist_submseteq, sublist_filter.
    + intros _ _. apply Forall_forall. intros c [Hc _]%list_elem_of_filter.
      by destruct (looks_like_ptk_fast c).
  - intros [= <-]. by exists prelim.
  - intros [= <-]. by exists prelim.
Qed.

Lemma apply_filters_survivors_witness :
  exists prelim,
    first_pass no_window today [atraxa_text; sun_quan_text; clara] = ret prelim
    /\ [atraxa_text] ⊆+ prelim.
Proof.
  destruct (apply_filters_survivors today (fun _ => PageFails timeout) id
              [atraxa_text; sun_quan_text; clara] no_window [atraxa_text])
    as (prelim & H1 & H2 & _); [done|reflexivity|].
  by exists prelim.
Defined.

(* ===================================================================== *)
(** * The deck count *)
(* ===================================================================== *)

Section Search.
Notation "a +++ b" := (String.append a b) (at level 60, right associativity).

Lemma append_cons c s t : String c s +++ t = String c (s +++ t).
Proof. reflexivity. Qed.

Lemma append_nil t : EmptyString +++ t = t.
Proof. reflexivity. Qed.

Lemma span_app p s t :
  all_chars p s = true -> stops p t -> span p (s +++ t) = (s, t).
Proof.
  intros Hs Ht. induction s as [|c s IH].
  - rewrite append_nil. destruct t as [|c t]; simpl in *; [done|by rewrite Ht].
  - rewrite append_cons. simpl in *.
    apply andb_true_iff in Hs as [-> Hs]. by rewrite (IH Hs).
Qed.

Lemma search_skips pre s :
  all_chars (fun c => negb (is_digit c)) pre = true ->
  DECKS_RE_search (pre +++ s) = DECKS_RE_search s.
Proof.
  induction pre as [|c pre IH]; [done|].
  rewrite append_cons. simpl.
  intros [Hc Hpre]%andb_true_iff. apply negb_true_iff in Hc. rewrite Hc.
  by apply IH.
Qed.

Lemma literal_ci_lower kw rest : forall lit,
  lower kw = lit -> literal_ci lit (kw +++ rest) = Some rest.
Proof.
  induction kw as [|c kw IH]; intros lit <-.
  - rewrite append_nil. by destruct rest.
  - rewrite append_cons. simpl. rewrite Ascii.eqb_refl. by apply IH.
Qed.

Lemma space_not_in_number c : is_space c = true -> is_digit_or_comma c = false.
Proof. destruct c as [[] [] [] [] [] [] [] []]; done. Qed.

Lemma decks_not_space kw :
  lower kw = "decks" -> stops is_space kw.
Proof.
  destruct kw as [|c kw]; [done|]. simpl. intros [= Hc _]. revert Hc.
  destruct c as [[] [] [] [] [] [] [] []]; done.
Qed.

Lemma stops_app p s t : s <> EmptyString -> stops p s -> stops p (s +++ t).
Proof. by destruct s. Qed.

Lemma match_number c g ws kw rest :
  is_digit c = true -> all_chars is_digit_or_comma g = true ->
  ws <> EmptyString -> all_chars is_space ws = true ->
  lower kw = "decks" ->
  DECKS_RE_match (String c g +++ ws +++ kw +++ rest) = Some (String c g).
Proof.
  intros Hc Hg Hne Hws Hkw.
  unfold DECKS_RE_match. rewrite append_cons. rewrite Hc.
  rewrite <- append_cons.
  rewrite (span_app is_digit_or_comma (String c g) (ws +++ kw +++ rest)).
  - rewrite (span_app is_space ws (kw +++ rest)); [|done|].
    + destruct ws as [|w ws]; [done|].
      by rewrite (literal_ci_lower kw rest "decks" Hkw).
    + apply stops_app; [by destruct kw|by apply decks_not_space].
  - simpl. unfold is_digit_or_comma at 1. by rewrite Hc, Hg.
  - destruct ws as [|w ws]; [done|]. rewrite append_cons. simpl.
    apply space_not_in_number. simpl in Hws.
    by apply andb_true_iff in Hws as [? _].
Qed.
End Search.

(** X16.  The count is the first number that is followed by white space
    and the word [decks] in any case: after a text without digits, a digit
    followed by digits and commas, then white space, then [decks], gives
    that number with its commas dropped, whatever comes next. *)
Theorem extract_deck_count_finds (pre ws kw rest g : string) (c : ascii) :
  all_chars (fun c => negb (is_digit c)) pre = true ->
  is_digit c = true -> all_chars is_digit_or_comma g = true ->
  ws <> EmptyString -> all_chars is_space ws = true ->
  lower kw = "decks" ->
  extract_deck_count
    (String.append pre
       (String.append (String c g)
          (String.append ws (String.append kw rest))))
  = (do n <- int_of_digits (remove_commas (String c g)); ret (Some n)).
Proof.
  intros Hpre Hc Hg Hne Hws Hkw. unfold extract_deck_count.
  rewrite search_skips by done.
  assert (DECKS_RE_search
            (String.append (String c g)
               (String.append ws (String.append kw rest)))
          = Some (String c g)) as ->; [|done].
  pose proof (match_number c g ws kw rest Hc Hg Hne Hws Hkw) as Hm.
  rewrite append_cons in *. cbn [DECKS_RE_search]. by rewrite Hm.
Qed.

Lemma extract_deck_count_finds_witness :
  extract_deck_count "<b>Decks: </b>12,345  DECKS in total"
  = ret (Some 12345%Z).
Proof.
  apply (extract_deck_count_finds "<b>Decks: </b>" "  " "DECKS" " in total"
           "2,345" "1"); reflexivity || done.
Defined.

(** X17.  A result of a fetch carries the commander's name, and never
    both a count and an error: with a count, the count is at least 0 and
    there is no error; with an error, there is no count and the address is
    the route address. *)
Theorem fetch_deck_count_shape (answer : response) (cmdr : Commander)
    (res : Result) :
  fetch_deck_count answer cmdr = ret res ->
  name res = cmdr_name cmdr
  /\ (forall d, decks res = Some d -> (0 <= d)%Z /\ error res = None)
  /\ (forall msg, error res = Some msg ->
        decks res = None /\ edhrec_url res = edhrec_route_url cmdr).
Proof.
  unfold fetch_deck_count, try_except.
  destruct answer as [e|final_url [e|html]]; simpl; try (intros [= <-]; by simpl).
  destruct (extract_deck_count html) as [e|count] eqn:Hx; simpl;
    intros [= <-]; simpl; split_and!; try done.
  intros d ->. split; [|done]. by eapply extract_deck_count_nonneg.
Qed.

Lemma fetch_deck_count_shape_witness :
  name (mkResult "X" "https://edhrec.com/commanders/x" (Some 7%Z) None) = "X".
Proof.
  apply (fetch_deck_count_shape
           (Response "https://edhrec.com/commanders/x" (ret "7 decks"))
           (mkCommander "X" "https://edhrec.com/route/?cc=X")).
  reflexivity.
Defined.

(* ===================================================================== *)
(** * The report *)
(* ===================================================================== *)

Section StringOrder.
Lemma string_compare_trans a : forall b c,
  String.compare a b <> Gt -> String.compare b c <> Gt ->
  String.compare a c <> Gt.
Proof.
  induction a as [|x a IH]; intros [|y b] [|z c]; simpl; try done.
  unfold Ascii.compare.
  destruct (N.compare_spec (N_of_ascii x) (N_of_ascii y)),
    (N.compare_spec (N_of_ascii y) (N_of_ascii z)),
    (N.compare_spec (N_of_ascii x) (N_of_ascii z));
    try done; try lia. apply IH.
Qed.

Lemma string_ltb_false a b : String.ltb b a = false <-> String.compare a b <> Gt.
Proof.
  unfold String.ltb. rewrite (String.compare_antisym a b).
  destruct (String.compare b a); simpl; split; intros H; try done.
Qed.

Lemma key_le_iff k1 k2 :
  key_le k1 k2
  <-> (k1.1 < k2.1)%Z \/ (k1.1 = k2.1 /\ String.compare k1.2 k2.2 <> Gt).
Proof.
  unfold key_le, key_lt.
  destruct (Z.eqb_spec k2.1 k1.1) as [E|E]; simpl.
  - rewrite string_ltb_false. split; [intros H; right; by split|].
    intros [?|[_ ?]]; [lia|done].
  - rewrite Z.ltb_ge. split; [intros; left; lia|]. intros [?|[? _]]; lia.
Qed.

Lemma key_le_trans k1 k2 k3 : key_le k1 k2 -> key_le k2 k3 -> key_le k1 k3.
Proof.
  rewrite !key_le_iff. intros [?|[E1 H1]] [?|[E2 H2]]; try (left; lia).
  right. split; [lia|]. by eapply string_compare_trans.
Qed.

Lemma key_lt_le k1 k2 : key_lt k1 k2 = true -> key_le k1 k2.
Proof.
  rewrite key_le_iff. unfold key_lt.
  destruct (Z.eqb_spec k1.1 k2.1) as [E|E]; simpl.
  - unfold String.ltb. destruct (String.compare k1.2 k2.2) eqn:Hc; try done.
    intros _. right. by split.
  - rewrite Z.ltb_lt. by left.
Qed.
End StringOrder.

Section SortBottom.
Lemma insert_sorted_perm r l : insert_sorted r l ≡ₚ r :: l.
Proof.
  induction l as [|y l IH]; simpl; [done|].
  destruct (key_lt (sort_key y) (sort_key r)); [|done].
  by rewrite IH, perm_swap.
Qed.

Lemma sort_bottom_perm l : sort_bottom l ≡ₚ l.
Proof.
  induction l as [|r l IH]; simpl; [done|]. by rewrite insert_sorted_perm, IH.
Qed.

Lemma insert_sorted_sorted r l :
  StronglySorted report_le l -> StronglySorted report_le (insert_sorted r l).
Proof.
  induction 1 as [|y l Hs IH Hall]; simpl.
  - repeat constructor.
  - destruct (key_lt (sort_key y) (sort_key r)) eqn:Hlt.
    + constructor; [done|]. rewrite insert_sorted_perm.
      constructor; [by apply key_lt_le|done].
    + constructor; [by constructor|]. constructor; [done|].
      eapply Forall_impl; [exact Hall|]. intros z Hz.
      by eapply key_le_trans.
Qed.

Lemma sort_bottom_sorted l : StronglySorted report_le (sort_bottom l).
Proof. induction l; simpl; [constructor|by apply insert_sorted_sorted]. Qed.

Lemma StronglySorted_filter {A} (R : A -> A -> Prop) (p : A -> bool) l :
  StronglySorted R l -> StronglySorted R (filter p l).
Proof.
  induction 1 as [|x l Hs IH Hall]; [constructor|].
  rewrite filter_cons. destruct (decide (p x)); [|done].
  constructor; [done|]. rewrite Forall_forall in *.
  intros y [_ Hy]%list_elem_of_filter. by apply Hall.
Qed.

Lemma filter_all_true {A} (p : A -> bool) (l : list A) :
  (forall x, p x = true) -> filter p l = l.
Proof.
  intros Hp. induction l as [|x l IH]; [done|].
  rewrite filter_cons, Hp. simpl. by rewrite IH.
Qed.
End SortBottom.

(** X18.  The report always comes out, sorted by count and then by name,
    a result without a count standing at 10^12.  It holds the retained
    results that are shown: all of them when errors are included, those
    with a count otherwise.  When its last result has a count, no result
    of the report has a larger one. *)
Theorem display_sorted (a : args) (results : list Result) :
  exists d b,
    display a results = ret d /\ bottom a results = ret b
    /\ StronglySorted report_le d
    /\ d ≡ₚ filter (fun r => shown a r) b
    /\ (include_errors a = true -> d ≡ₚ b)
    /\ (include_errors a = false -> Forall (fun r => decks r <> None) d)
    /\ (forall r z, last d = Some r -> decks r = Some z ->
          Forall (fun r' => (default big (decks r') <= z)%Z) d).
Proof.
  destruct (bottom_spec a results) as (b & Hb & _).
  exists (filter (fun r => shown a r) (sort_bottom b)), b.
  unfold display. rewrite Hb. simpl.
  assert (StronglySorted report_le (filter (fun r => shown a r) (sort_bottom b)))
    as Hsorted by apply StronglySorted_filter, sort_bottom_sorted.
  split_and!; try done.
  - by rewrite sort_bottom_perm.
  - intros Hinc. rewrite <- (sort_bottom_perm b) at 2.
    rewrite filter_all_true; [done|].
    intros r. unfold shown. rewrite Hinc. by rewrite orb_true_r.
  - intros Hexc. apply Forall_forall. intros r [Hr _]%list_elem_of_filter.
    unfold shown in Hr. rewrite Hexc, orb_false_r in Hr.
    by apply bool_decide_unpack in Hr.
  - intros r z [l' Hl]%last_Some Hz. rewrite Hl in *.
    apply Forall_app. split.
    + apply Forall_forall. intros r' Hr'.
      assert (report_le r' r) as Hle.
      { eapply StronglySorted_app_1_elem_of; [exact Hsorted|done|by left]. }
      apply key_le_iff in Hle. unfold sort_key in Hle. simpl in Hle.
      rewrite Hz in Hle. simpl in Hle. lia.
    + constructor; [|done]. rewrite Hz. simpl. lia.
Qed.

Lemma display_sorted_witness :
  exists d b,
    display (run 3 false false) five = ret d
    /\ bottom (run 3 false false) five = ret b
    /\ Forall (fun r => decks r <> None) d.
Proof.
  destruct (display_sorted (run 3 false false) five)
    as (d & b & H1 & H2 & _ & _ & _ & H3 & _).
  exists d, b. split_and!; [done|done|]. by apply H3.
Defined.

(** X19.  The selector splits the admitted results in two: the retained
    ones and the dropped ones, and no dropped result has a smaller rank key
    than a retained one. *)
Theorem dropped_rank_no_better (a : args) (results : list Result) :
  exists b dropped,
    bottom a results = ret b
    /\ admitted a results ≡ₚ b ++ dropped
    /\ forall x y, x ∈ b -> y ∈ dropped -> (rank_key a x <= rank_key a y)%Z.
Proof.
  destruct (bottom_spec a results) as (b & Hb & Hp).
  unfold brute_force_bottom in Hp.
  set (sorted := sort_by_rank a (rev (admitted a results))) in *.
  exists b, (drop (Z.to_nat (bottom_k a)) sorted).
  split_and!; [done| |].
  - rewrite Hp, take_drop. unfold sorted.
    by rewrite sort_by_rank_perm, <- Permutation_rev.
  - intros x y Hx Hy. rewrite Hp in Hx.
    pose proof (sort_by_rank_sorted a (rev (admitted a results))) as Hs.
    fold sorted in Hs. rewrite <- (take_drop (Z.to_nat (bottom_k a)) sorted) in Hs.
    by apply (StronglySorted_app_1_elem_of _ _ _ x y Hs).
Qed.

(* ===================================================================== *)
(** * The whole run *)
(* ===================================================================== *)

Lemma fetch_deck_count_returns (answer : response) (cmdr : Commander) :
  exists res, fetch_deck_count answer cmdr = ret res /\ name res = cmdr_name cmdr.
Proof.
  unfold fetch_deck_count, try_except.
  destruct answer as [e|final_url [e|html]]; simpl; eauto.
  destruct (extract_deck_count html) as [e|count]; simpl; eauto.
Qed.

Lemma await_loop_rets (a : args) (rs : list Result) : forall st,
  await_loop a st (ret <$> rs) = main_async_loop a st rs.
Proof.
  induction rs as [|r rs IH]; intros st; simpl; [done|].
  destruct (main_async_step a st r) as [e|st']; simpl; [done|]. apply IH.
Qed.

Lemma tasks_return (pages : Commander -> response) (cs : list Commander) :
  exists rs, map (fun cmdr => fetch_deck_count (pages cmdr) cmdr) cs = ret <$> rs
             /\ name <$> rs = cmdr_name <$> cs.
Proof.
  induction cs as [|cmdr cs (rs & Hrs & Hnames)]; simpl.
  - by exists [].
  - destruct (fetch_deck_count_returns (pages cmdr) cmdr) as (r & -> & Hname).
    exists (r :: rs). rewrite !fmap_cons. by rewrite Hrs, Hname, Hnames.
Qed.

Lemma collapse_members (cards : list card) (c : card) :
  c ∈ collapse_by_oracle cards -> c ∈ cards /\ is_commander_face c = true.
Proof.
  unfold collapse_by_oracle.
  destruct (collapse_loop_spec cards []) as (rest & -> & _ & _ & Hmem);
    [constructor|].
  simpl. intros (_ & before & after & -> & Hface & _)%Hmem.
  split; [|done]. apply elem_of_app. right. by left.
Qed.

Lemma apply_filters_members (today_utc : date) (prints : card -> printings)
    (as_completed : list card -> list card) (pool out : list card)
    (o : filter_options) (c : card) :
  (forall l, as_completed l ≡ₚ l) ->
  apply_filters_async today_utc prints as_completed pool o = ret out ->
  c ∈ out -> c ∈ pool.
Proof.
  intros Hperm. unfold apply_filters_async.
  destruct (first_pass o today_utc pool) as [e|prelim] eqn:Hfirst; [done|].
  apply first_pass_inv in Hfirst as [-> _]. simpl.
  destruct (exclude_ptk o), (ptk_strict o); simpl.
  - destruct (strict_semaphore o); [done|]. simpl. rewrite gather_checks.
    intros [= <-] [_ Hc]%list_elem_of_filter.
    rewrite Hperm in Hc. by apply list_elem_of_filter in Hc as [_ ?].
  - intros [= <-] [_ Hc]%list_elem_of_filter.
    by apply list_elem_of_filter in Hc as [_ ?].
  - intros [= <-] Hc. by apply list_elem_of_filter in Hc as [_ ?].
  - intros [= <-] Hc. by apply list_elem_of_filter in Hc as [_ ?].
Qed.

Lemma commanders_members (related_uris : card -> option (gmap string string))
    (pool : list card) : forall cs cmdr,
  Route.commanders related_uris pool = Some cs -> cmdr ∈ cs ->
  exists c, c ∈ pool /\ c !! "name" = Some (cmdr_name cmdr).
Proof.
  induction pool as [|c pool IH]; intros cs cmdr; simpl.
  - intros [= <-] Hin. by apply elem_of_nil in Hin.
  - destruct (c !! "name") as [n|] eqn:Hn; simpl; [|done].
    destruct (Route.edhrec_route_url (related_uris c) c) as [url|]; simpl; [|done].
    destruct (Route.commanders related_uris pool) as [rest|]; simpl; [|done].
    intros [= <-] [->|Hin]%elem_of_cons.
    + exists c. split; [by left|done].
    + destruct (IH rest cmdr eq_refl Hin) as (c' & Hc' & Hname).
      exists c'. split; [by right|done].
Qed.

Lemma bottom_members (a : args) (results b : list Result) (r : Result) :
  bottom a results = ret b -> r ∈ b -> r ∈ results.
Proof.
  intros Hb Hr. destruct (bottom_spec a results) as (b' & Hb' & Hp).
  rewrite Hb in Hb'. injection Hb' as <-. rewrite Hp in Hr.
  unfold brute_force_bottom in Hr.
  apply elem_of_take in Hr as (i & Hr & _).
  apply list_elem_of_lookup_2 in Hr. rewrite sort_by_rank_perm in Hr.
  rewrite <- Permutation_rev in Hr. unfold admitted in Hr.
  by apply list_elem_of_filter in Hr as [_ ?].
Qed.

Lemma bottom_length (a : args) (results b : list Result) :
  bottom a results = ret b -> (Z.of_nat (length b) <= Z.max 0 (bottom_k a))%Z.
Proof.
  intros Hb. destruct (bottom_spec a results) as (b' & Hb' & Hp).
  rewrite Hb in Hb'. injection Hb' as <-. rewrite Hp.
  unfold brute_force_bottom. rewrite length_take. lia.
Qed.

(** X20.  A catalog fetch that fails ends the run with that exception,
    whatever the settings and whatever else the run would have met. *)
Theorem catalog_failure_is_fatal (w : world) (a : args) (e : exn) :
  failure_of (w_catalog w) = Some e -> main_async w a = Aborted e.
Proof.
  intros Hfail. unfold main_async, fetch_all_scryfall.
  rewrite fetch_pages_run. simpl. by rewrite Hfail.
Qed.

Lemma catalog_failure_is_fatal_witness :
  main_async
    (mkWorld (CatalogPage [atraxa]
                (More "https://api.scryfall.com/p2" (CatalogFails timeout))) today
       (fun _ => PageFails timeout) (fun _ => None)
       (fun _ => GetRaises timeout) id id)
    (run 3 false false)
  = Aborted timeout.
Proof.
  apply (catalog_failure_is_fatal
           (mkWorld (CatalogPage [atraxa]
                (More "https://api.scryfall.com/p2" (CatalogFails timeout))) today
              (fun _ => PageFails timeout) (fun _ => None)
              (fun _ => GetRaises timeout) id id)
           (run 3 false false) timeout).
  reflexivity.
Defined.

(** X21.  With recency on, a window that reaches back to before the
    first day of the calendar ends the run with an [OverflowError] once
    the catalog is read: the cutoff date of the notice cannot be
    computed. *)
Theorem wide_window_aborts (w : world) (a : args) :
  failure_of (w_catalog w) = None ->
  include_recent a = false ->
  (0 < args_recent_days a)%Z ->
  (toordinal (w_today w) <= args_recent_days a)%Z ->
  exists msg, main_async w a = Aborted (Exn OverflowError msg).
Proof.
  intros Hok Hrecent Hpos Hwide. unfold main_async, fetch_all_scryfall.
  rewrite fetch_pages_run. simpl. rewrite Hok.
  unfold cutoff_notice. rewrite Hrecent. simpl.
  destruct (Z.ltb_spec 0 (args_recent_days a)) as [_|?]; [|lia].
  unfold timedelta.
  destruct (Z.leb_spec (Z.abs (args_recent_days a)) 999999999); simpl; [|eauto].
  destruct (Z.ltb_spec 0 (toordinal (w_today w) - args_recent_days a));
    [lia|]. simpl. eauto.
Qed.

Lemma wide_window_aborts_witness :
  exists msg,
    main_async
      (mkWorld (CatalogPage [atraxa] NoMore) today
         (fun _ => PageFails timeout) (fun _ => None)
         (fun _ => GetRaises timeout) id id)
      (mkArgs 3 8 false false false false false false false false false
         true false false 1000000)
    = Aborted (Exn OverflowError msg).
Proof.
  apply (wide_window_aborts
           (mkWorld (CatalogPage [atraxa] NoMore) today
              (fun _ => PageFails timeout) (fun _ => None)
              (fun _ => GetRaises timeout) id id)
           (mkArgs 3 8 false false false false false false false false false
              true false false 1000000)); [reflexivity|reflexivity|done|].
  by vm_compute.
Defined.

(** X22.  A negative [--concurrency] never lets a run finish: the run
    ends with an exception, at the latest when the semaphore of the
    fetches is made. *)
Theorem negative_concurrency_aborts (w : world) (a : args) :
  (args_concurrency a < 0)%Z -> exists e, main_async w a = Aborted e.
Proof.
  intros Hneg. unfold main_async.
  destruct (fetch_all_scryfall (w_catalog w)).2 as [e|cards]; [eauto|].
  destruct (cutoff_notice (w_today w) a) as [e|_]; [eauto|].
  destruct (apply_filters_async _ _ _ _ _) as [e|pool]; [eauto|].
  unfold fetch_semaphore, Semaphore.
  destruct (Z.ltb_spec (args_concurrency a) 0); [eauto|lia].
Qed.

Lemma negative_concurrency_aborts_witness :
  exists e,
    main_async
      (mkWorld (CatalogPage [atraxa] NoMore) today
         (fun _ => PageFails timeout) (fun _ => None)
         (fun _ => GetRaises timeout) id id)
      (mkArgs 3 (-1) false false false false false false false false false
         true false false 90)
    = Aborted e.
Proof.
  apply (negative_concurrency_aborts
           (mkWorld (CatalogPage [atraxa] NoMore) today
              (fun _ => PageFails timeout) (fun _ => None)
              (fun _ => GetRaises timeout) id id)
           (mkArgs 3 (-1) false false false false false false false false false
              true false false 90)).
  done.
Defined.

(** X23.  When the scheduler completes every task once, a report that
    comes out has at most K results, each under the name of a commander
    face that the catalog returned. *)
Theorem report_of_catalog_commanders (w : world) (a : args) (d : list Result) :
  completes_each_once w ->
  main_async w a = Finished d ->
  (Z.of_nat (length d) <= Z.max 0 (bottom_k a))%Z
  /\ Forall (fun r => exists c, c ∈ concat (pages_of (w_catalog w))
                               /\ is_commander_face c = true
                               /\ c !! "name" = Some (name r)) d.
Proof.
  intros [Hchecks Hfetches]. unfold main_async, fetch_all_scryfall.
  rewrite fetch_pages_run. simpl.
  destruct (failure_of (w_catalog w)); simpl; [done|].
  set (cards := concat (pages_of (w_catalog w))).
  destruct (cutoff_notice (w_today w) a) as [e|_]; [done|].
  destruct (apply_filters_async _ _ _ _ _) as [e|pool] eqn:Hpool; [done|].
  destruct (fetch_semaphore a) as [e|sem]; [done|].
  destruct (Route.commanders (w_related w) pool) as [cs|] eqn:Hcs; [|done].
  destruct (_ && _); [done|].
  destruct (tasks_return (w_pages w) cs) as (rs0 & -> & Hnames).
  pose proof (Hfetches (ret <$> rs0)) as Hp.
  apply (Permutation_map_inv ret) in Hp as (rs & Hstream & Hrs).
  rewrite Hstream. change (map ret rs) with (ret <$> rs).
  rewrite await_loop_rets.
  destruct (main_async_loop a ([], 0%Z) rs) as [e|st] eqn:Hrun; [done|].
  intros [= <-].
  assert (bottom a rs = ret (map (fun t : item => t.2) st.1)) as Hb.
  { unfold bottom, final_heap. by rewrite Hrun. }
  split.
  - etransitivity; [|by eapply bottom_length].
    apply inj_le. etransitivity; [apply length_filter|].
    by rewrite (Permutation_length (sort_bottom_perm _)).
  - apply Forall_forall. intros r [_ Hr]%list_elem_of_filter.
    rewrite sort_bottom_perm in Hr.
    eapply bottom_members in Hr; [|exact Hb].
    assert (name r ∈ cmdr_name <$> cs) as Hname.
    { rewrite <- Hnames. rewrite Hrs. by apply list_elem_of_fmap_2. }
    apply list_elem_of_fmap in Hname as (cmdr & Hname & Hcmdr).
    destruct (commanders_members _ _ _ _ Hcs Hcmdr) as (c & Hc & Hcname).
    eapply apply_filters_members in Hc; [|exact Hchecks|exact Hpool].
    apply collapse_members in Hc as [Hc Hface].
    exists c. split_and!; [done|done|]. by rewrite Hname.
Qed.

Lemma report_of_catalog_commanders_witness :
  (Z.of_nat (length [mkResult "Atraxa" "https://edhrec.com/commanders/atraxa"
                       (Some 7%Z) None]) <= 3)%Z.
Proof.
  destruct (report_of_catalog_commanders
              (mkWorld (CatalogPage [atraxa_text; token] NoMore) today
                 (fun _ => PageFails timeout) (fun _ => None)
                 (fun _ => Response "https://edhrec.com/commanders/atraxa"
                             (ret "7 decks"))
                 id id)
              (run 3 false false)
              [mkResult "Atraxa" "https://edhrec.com/commanders/atraxa"
                 (Some 7%Z) None]) as [H _].
  - by split.
  - reflexivity.
  - exact H.
Defined.

Lemma first_pass_total (o : filter_options) (today_utc : date) (pool : list card) :
  exclude_recent o = false \/ (recent_days o <= 999999999)%Z ->
  first_pass o today_utc pool = ret (filter (kept_by_first_pass o today_utc) pool).
Proof.
  intros Hsafe. induction pool as [|c pool IH]; simpl; [done|].
  rewrite (first_pass_keeps_total o today_utc c Hsafe). simpl. rewrite IH. simpl.
  rewrite filter_cons. by destruct (kept_by_first_pass o today_utc c).
Qed.

Lemma apply_filters_total (today_utc : date) (prints : card -> printings)
    (as_completed : list card -> list card) (pool : list card)
    (o : filter_options) :
  exclude_recent o = false \/ (recent_days o <= 999999999)%Z ->
  exists out, apply_filters_async today_utc prints as_completed pool o = ret out.
Proof.
  intros Hsafe. unfold apply_filters_async.
  rewrite (first_pass_total o today_utc pool Hsafe). simpl.
  destruct (exclude_ptk o), (ptk_strict o); simpl; eauto.
  unfold strict_semaphore, Semaphore.
  destruct (Z.ltb_spec (Z.max 2 (concurrency o)) 0); [lia|]. simpl.
  rewrite gather_checks. eauto.
Qed.

Lemma commanders_total (related_uris : card -> option (gmap string string))
    (pool : list card) :
  Forall (fun c : card => is_Some (c !! "name")) pool ->
  is_Some (Route.commanders related_uris pool).
Proof.
  induction 1 as [|c pool [n Hn] _ [rest IH]]; simpl; [done|].
  rewrite Hn. simpl.
  assert (exists url, Route.edhrec_route_url (related_uris c) c = Some url)
    as [url ->].
  { unfold Route.edhrec_route_url. rewrite Hn.
    destruct (default ∅ (related_uris c) !! "edhrec"); simpl; eauto. }
  simpl. rewrite IH. simpl. eauto.
Qed.

Lemma toordinal_calendar (d : date) :
  valid_date d -> (1 <= toordinal d <= MAXORDINAL)%Z.
Proof.
  intros Hd. pose proof (toordinal_bounds d Hd) as Hb.
  destruct Hd as (Hy & _).
  pose proof (days_before_year_mono 1 (year d) ltac:(lia)) as H1.
  pose proof (days_before_year_mono (year d + 1) 10000 ltac:(lia)) as H2.
  change (days_before_year 1) with 0%Z in H1.
  change (days_before_year 10000) with 3652059%Z in H2.
  unfold MAXORDINAL. lia.
Qed.

(** X24.  A run comes to its report when the catalog is read without a
    failure, every commander face it returned has a name, the scheduler
    completes every task once, the semaphore of the fetches has a slot,
    and the recency window, if on, is shorter than the day number of
    today: no fetch of a count, no verification and no step of the
    selector can end it. *)
Theorem run_finishes (w : world) (a : args) :
  completes_each_once w ->
  valid_date (w_today w) ->
  failure_of (w_catalog w) = None ->
  include_recent a = true \/ (args_recent_days a < toordinal (w_today w))%Z ->
  (0 < args_concurrency a)%Z ->
  (forall c, c ∈ concat (pages_of (w_catalog w)) ->
             is_commander_face c = true -> is_Some (c !! "name")) ->
  exists d, main_async w a = Finished d.
Proof.
  intros [Hchecks Hfetches] Htoday Hok Hwindow Hslots Hnames.
  pose proof (toordinal_calendar _ Htoday) as Hord. unfold MAXORDINAL in Hord.
  unfold main_async, fetch_all_scryfall.
  rewrite fetch_pages_run. cbn [snd]. rewrite Hok. cbn [app ret].
  set (cards := concat (pages_of (w_catalog w))) in *.
  assert (cutoff_notice (w_today w) a = ret tt) as ->.
  { unfold cutoff_notice.
    destruct (include_recent a) eqn:Hrecent; simpl; [done|].
    destruct Hwindow as [?|Hwindow]; [done|].
    destruct (Z.ltb_spec 0 (args_recent_days a)); [|done].
    unfold timedelta.
    destruct (Z.leb_spec (Z.abs (args_recent_days a)) 999999999); [|lia]. simpl.
    destruct (Z.ltb_spec 0 (toordinal (w_today w) - args_recent_days a)); [|lia].
    unfold MAXORDINAL.
    by destruct (Z.leb_spec (toordinal (w_today w) - args_recent_days a) 3652059);
      [|lia]. }
  destruct (apply_filters_total (w_today w) (w_prints w) (w_checks_completed w)
              (collapse_by_oracle cards) (filter_options_of a)) as [pool Hpool].
  { simpl. destruct (include_recent a); simpl; [by left|].
    right. destruct Hwindow as [?|?]; [done|lia]. }
  rewrite Hpool. cbn [ret].
  unfold fetch_semaphore, Semaphore.
  destruct (Z.ltb_spec (args_concurrency a) 0); [lia|]. cbn [ret].
  destruct (commanders_total (w_related w) pool) as [cs ->].
  { apply Forall_forall. intros c Hc.
    eapply apply_filters_members in Hc; [|exact Hchecks|exact Hpool].
    apply collapse_members in Hc as [Hc Hface]. by apply Hnames. }
  destruct (Z.eqb_spec (args_concurrency a) 0); [lia|]. cbn [andb].
  destruct (tasks_return (w_pages w) cs) as (rs0 & -> & _).
  pose proof (Hfetches (ret <$> rs0)) as Hp.
  apply (Permutation_map_inv ret) in Hp as (rs & Hstream & _).
  rewrite Hstream. change (map ret rs) with (ret <$> rs).
  rewrite await_loop_rets.
  destruct (loop_correct a rs [] ([], 0%Z) (selector_inv_init a))
    as (st & -> & _).
  cbn [ret]. eauto.
Qed.

Lemma run_finishes_witness :
  exists d,
    main_async
      (mkWorld (CatalogPage [atraxa_text; token] NoMore) today
         (fun _ => PageFails timeout) (fun _ => None)
         (fun _ => Response "https://edhrec.com/commanders/atraxa"
                     (ret "7 decks"))
         id id)
      (run 3 false false)
    = Finished d.
Proof.
  apply (run_finishes
           (mkWorld (CatalogPage [atraxa_text; token] NoMore) today
              (fun _ => PageFails timeout) (fun _ => None)
              (fun _ => Response "https://edhrec.com/commanders/atraxa"
                          (ret "7 decks"))
              id id)
           (run 3 false false)).
  - by split.
  - unfold valid_date. simpl. change (days_in_month 2026 11) with 30%Z. lia.
  - reflexivity.
  - right. by vm_compute.
  - done.
  - intros c Hc _. simpl in Hc.
    apply elem_of_cons in Hc as [->|Hc]; [by eexists|].
    apply elem_of_cons in Hc as [->|Hc]; [by eexists|].
    by apply elem_of_nil in Hc.
Defined.
